(** * omniledger/service/transaction.go: instructions, state changes and
    the salted ordering of client transactions.

    A shallow embedding of the Go source.  Bytes are integers in [0, 256),
    byte slices are lists, Go strings are [string]s read as byte sequences,
    pointers to payload structs are [option]s, and a call that may return
    an error or panic yields an [outcome].  [crypto/sha256] is written out
    after FIPS 180-4 so that every digest below can be evaluated.

    The packages the file calls into are not part of it.  Of package darc
    the request record is modelled and the parser of darcs is a parameter;
    of package collection the read interface is a record of results;
    [network.Marshal], [network.Unmarshal] and [protobuf.Encode] are
    parameters; [sort.Slice] is any function meeting the contract of
    package sort. *)

From Stdlib Require Import ZArith List String Ascii Bool Lia.
From Stdlib Require Import Permutation Sorted.
Import ListNotations.
Local Open Scope Z_scope.

(** ** Bytes, byte slices and strings *)

Definition byte := Z.
Definition bytes := list byte.

(** [[]byte(s)] for a Go string [s]. *)
Definition bytes_of_string (s : string) : bytes :=
  map (fun c => Z.of_N (N_of_ascii c)) (list_ascii_of_string s).

(** [string(b)] for a byte slice [b]. *)
Definition string_of_bytes (b : bytes) : string :=
  string_of_list_ascii (map (fun x => ascii_of_N (Z.to_N x)) b).

(** [uint32(x)] for a Go [int]: the low 32 bits. *)
Definition uint32 (x : Z) : Z := x mod 2 ^ 32.

(** [binary.LittleEndian.PutUint32(b, v)] on a four-byte buffer. *)
Definition PutUint32 (v : Z) : bytes :=
  [ v mod 256; (v / 2 ^ 8) mod 256; (v / 2 ^ 16) mod 256; (v / 2 ^ 24) mod 256 ].

(** [bytes.Compare]: lexicographic order, result in {-1, 0, 1}. *)
Fixpoint bytes_Compare (a b : bytes) : Z :=
  match a, b with
  | [], [] => 0
  | [], _ :: _ => -1
  | _ :: _, [] => 1
  | x :: a', y :: b' =>
      if x <? y then -1 else if y <? x then 1 else bytes_Compare a' b'
  end.

(** ** crypto/sha256 *)

Module SHA256.

Definition mask32 : Z := 2 ^ 32 - 1.
Definition add32 (x y : Z) : Z := Z.land (x + y) mask32.
Definition rotr (n x : Z) : Z :=
  Z.lor (Z.shiftr x n) (Z.land (Z.shiftl x (32 - n)) mask32).
Definition choose (e f g : Z) : Z :=
  Z.lxor (Z.land e f) (Z.land (Z.lxor e mask32) g).
Definition majority (a b c : Z) : Z :=
  Z.lxor (Z.lxor (Z.land a b) (Z.land a c)) (Z.land b c).
Definition xor3 (x y z : Z) : Z := Z.lxor (Z.lxor x y) z.
Definition Sum0 (a : Z) : Z := xor3 (rotr 2 a) (rotr 13 a) (rotr 22 a).
Definition Sum1 (e : Z) : Z := xor3 (rotr 6 e) (rotr 11 e) (rotr 25 e).
Definition sig0 (x : Z) : Z := xor3 (rotr 7 x) (rotr 18 x) (Z.shiftr x 3).
Definition sig1 (x : Z) : Z := xor3 (rotr 17 x) (rotr 19 x) (Z.shiftr x 10).

(** The round constants and the initial state are the fractional bits of
    the cube and square roots of the first primes. *)
Definition is_prime (n : Z) : bool :=
  forallb (fun d => negb (n mod Z.of_nat d =? 0)) (seq 2 (Z.to_nat n - 2)).

Definition first_primes (k : nat) : list Z :=
  firstn k (filter is_prime (map Z.of_nat (seq 2 320))).

Fixpoint cube_root_bits (i : nat) (n r : Z) : Z :=
  match i with
  | O => r
  | S j =>
      let c := r + 2 ^ Z.of_nat j in
      cube_root_bits j n (if c * c * c <=? n then c else r)
  end.

Definition round_constants : list Z :=
  Eval vm_compute in
    map (fun p => cube_root_bits 40 (p * 2 ^ 96) 0 mod 2 ^ 32) (first_primes 64).

Definition state : Type := (Z * Z * Z * Z * Z * Z * Z * Z)%type.

Definition initial_state : state :=
  Eval vm_compute in
    match map (fun p => Z.sqrt (p * 2 ^ 64) mod 2 ^ 32) (first_primes 8) with
    | [a; b; c; d; e; f; g; h] => (a, b, c, d, e, f, g, h)
    | _ => (0, 0, 0, 0, 0, 0, 0, 0)
    end.

(** The message schedule, newest word first while it is being extended. *)
Fixpoint extend (n : nat) (w : list Z) : list Z :=
  match n with
  | O => w
  | S m =>
      let x := add32 (add32 (sig1 (nth 1 w 0)) (nth 6 w 0))
                     (add32 (sig0 (nth 14 w 0)) (nth 15 w 0)) in
      extend m (x :: w)
  end.

Definition schedule (block : list Z) : list Z := rev (extend 48 (rev block)).

Definition round (s : state) (kw : Z * Z) : state :=
  let '(a, b, c, d, e, f, g, h) := s in
  let t1 := add32 (add32 (add32 h (Sum1 e)) (choose e f g))
                  (add32 (fst kw) (snd kw)) in
  let t2 := add32 (Sum0 a) (majority a b c) in
  (add32 t1 t2, a, b, c, add32 d t1, e, f, g).

Definition compress (s : state) (block : list Z) : state :=
  let '(a, b, c, d, e, f, g, h) := s in
  let '(a', b', c', d', e', f', g', h') :=
    fold_left round (combine round_constants (schedule block)) s in
  (add32 a a', add32 b b', add32 c c', add32 d d',
   add32 e e', add32 f f', add32 g g', add32 h h').

Fixpoint words_of_bytes (bs : bytes) : list Z :=
  match bs with
  | a :: b :: c :: d :: rest =>
      (a * 2 ^ 24 + b * 2 ^ 16 + c * 2 ^ 8 + d) :: words_of_bytes rest
  | _ => []
  end.

Definition bytes_of_word (x : Z) : bytes :=
  [ (x / 2 ^ 24) mod 256; (x / 2 ^ 16) mod 256; (x / 2 ^ 8) mod 256; x mod 256 ].

Definition pad (msg : bytes) : bytes :=
  let len := Z.of_nat (List.length msg) in
  msg ++ [128] ++ repeat 0 (Z.to_nat ((55 - len) mod 64))
      ++ bytes_of_word ((8 * len) / 2 ^ 32) ++ bytes_of_word (8 * len).

Fixpoint absorb (n : nat) (msg : bytes) (s : state) : state :=
  match n with
  | O => s
  | S m => absorb m (skipn 64 msg) (compress s (words_of_bytes (firstn 64 msg)))
  end.

Definition digest (s : state) : bytes :=
  let '(a, b, c, d, e, f, g, h) := s in
  bytes_of_word a ++ bytes_of_word b ++ bytes_of_word c ++ bytes_of_word d ++
  bytes_of_word e ++ bytes_of_word f ++ bytes_of_word g ++ bytes_of_word h.

(** [sha256.Size] *)
Definition Size : nat := 32.

(** [sha256.Sum256] *)
Definition Sum256 (msg : bytes) : bytes :=
  let p := pad msg in
  digest (absorb (List.length p / 64) p initial_state).

End SHA256.

(** Digests read as one big-endian number, for test vectors. *)
Definition number_of_bytes (b : bytes) : Z :=
  fold_left (fun acc x => acc * 256 + x) b 0.

Example Sum256_empty :
  number_of_bytes (SHA256.Sum256 []) =
  0xe3b0c44298fc1c149afbf4c8996fb92427ae41e4649b934ca495991b7852b855.
Proof. vm_compute. reflexivity. Qed.

Example Sum256_abc :
  number_of_bytes (SHA256.Sum256 (bytes_of_string "abc"%string)) =
  0xba7816bf8f01cfea414140de5dae2223b00361a396177a9cb410ff61f20015ad.
Proof. vm_compute. reflexivity. Qed.

Example Sum256_two_blocks :
  number_of_bytes (SHA256.Sum256 (bytes_of_string
    "abcdbcdecdefdefgefghfghighijhijkijkljklmklmnlmnomnopnopq"%string)) =
  0x248d6a61d20638b8e5c026930c3e6039a33ce45964ff2167f6ecedd419db06c1.
Proof. vm_compute. reflexivity. Qed.

(** A digest always has [sha256.Size] bytes. *)
Lemma Sum256_length (msg : bytes) : List.length (SHA256.Sum256 msg) = SHA256.Size.
Proof.
  unfold SHA256.Sum256, SHA256.digest.
  destruct (SHA256.absorb _ _ _) as [[[[[[[a b] c] d] e] f] g] h].
  reflexivity.
Qed.

(** The streaming interface [hash.Hash] of [sha256.New()]: the state is the
    sequence of bytes written so far, [Sum(nil)] digests it. *)
Module Hasher.

Definition t : Type := bytes.
Definition New : t := [].
Definition Write (h : t) (p : bytes) : t := h ++ p.
Definition Sum (h : t) : bytes := SHA256.Sum256 h.

End Hasher.

(** Go's [error]: the message it carries. *)
Definition error := string.

(** What a call yields: a value, an error for the caller, or a run-time
    panic (nil dereference, index out of range, failed type assertion). *)
Inductive outcome (A : Type) : Type :=
| Ok (a : A)
| Err (e : error)
| Panic.
Arguments Ok {A} a.
Arguments Err {A} e.
Arguments Panic {A}.

(** [copy(dst, src)]: overwrites the first [min(len(dst), len(src))]
    elements of [dst]. *)
Definition copy {A : Type} (dst src : list A) : list A :=
  firstn (List.length dst) src ++ skipn (List.length src) dst.

(** [s[i] = x] on a slice; out of range is a panic in Go, here [None]. *)
Fixpoint store {A : Type} (s : list A) (i : nat) (x : A) : option (list A) :=
  match s, i with
  | [], _ => None
  | _ :: s', O => Some (x :: s')
  | y :: s', S j =>
      match store s' j x with
      | Some r => Some (y :: r)
      | None => None
      end
  end.

(** ** The messages of the API *)

(** [Nonce] is [[32]byte]. *)
Definition Nonce := bytes.

Definition Nonce_wf (n : Nonce) : Prop := List.length n = 32%nat.

Record ObjectID : Type := {
  oid_DarcID : bytes;       (* darc.ID, a byte slice *)
  oid_InstanceID : Nonce
}.

Definition Slice (oid : ObjectID) : bytes :=
  let out := [] in
  let out := out ++ oid_DarcID oid in
  out ++ oid_InstanceID oid.

Record Argument : Type := {
  arg_Name : string;
  arg_Value : bytes
}.

Definition Arguments := list Argument.

(** [Search] returns the value of the first argument of that name, and
    nil (the empty slice) when there is none. *)
Fixpoint Search (args : Arguments) (name : string) : bytes :=
  match args with
  | [] => []
  | arg :: rest =>
      if String.eqb (arg_Name arg) name then arg_Value arg else Search rest name
  end.

Record Spawn : Type := {
  spawn_ContractID : string;
  spawn_Args : Arguments
}.

Record Invoke : Type := {
  invoke_Command : string;
  invoke_Args : Arguments
}.

Inductive Delete : Type := Delete_struct.

Inductive instrType : Type :=
| InvalidInstrType
| SpawnType
| InvokeType
| DeleteType.

(** [StateAction] is an [int]; [Create = iota + 1]. *)
Definition StateAction := Z.
Definition Create : StateAction := 1.
Definition Update : StateAction := 2.
Definition Remove : StateAction := 3.

(** [StateAction.String] *)
Definition StateAction_String (sc : StateAction) : string :=
  if sc =? Create then "Create"
  else if sc =? Update then "Update"
  else if sc =? Remove then "Remove"
  else "Invalid stateChange".

Record StateChange : Type := {
  sc_StateAction : StateAction;
  sc_ObjectID : bytes;
  sc_ContractID : bytes;
  sc_Value : bytes
}.

Definition NewStateChange (sa : StateAction) (objectID : ObjectID)
    (contractID : string) (value : bytes) : StateChange :=
  {| sc_StateAction := sa;
     sc_ObjectID := Slice objectID;
     sc_ContractID := bytes_of_string contractID;
     sc_Value := value |}.

(** ** package collection, as [GetContractState] uses it *)

(** A decoded field of a record: an [interface{}] holding a byte slice or
    a value of some other type. *)
Inductive field_value : Type :=
| BytesValue (b : bytes)
| OtherValue (tag : Z).

(** Modelled from the spec: the read side of the key/value store (package
    omniledger/collection is not among the sources).  [Get(key)] gives a
    getter, [Record()] its record or an error, [Values()] the record's
    ordered fields or an error. *)
Record collection_Record : Type := {
  Values : error + list field_value
}.

Record collection_Getter : Type := {
  Record_ : error + collection_Record
}.

Record CollectionView : Type := {
  Get : bytes -> collection_Getter
}.

(** The type assertion [v.([]byte)] on the element of index [i]. *)
Definition bytes_at (cv : list field_value) (i : nat) : option bytes :=
  match nth_error cv i with
  | Some (BytesValue b) => Some b
  | _ => None
  end.

(** ** Instructions *)

Section Instructions.

(** [darc.Identity] and its zero value; the package only moves identities
    around. *)
Context {Identity : Type}.
Variable zeroIdentity : Identity.

(** Modelled from the spec: [darc.Signature], a signer's identity with the
    raw signature bytes (package omniledger/darc is not among the
    sources). *)
Record darc_Signature : Type := {
  sig_Signature : bytes;
  sig_Signer : Identity
}.

(** Modelled from the spec: [darc.Request], the policy-verification request
    carrying the base identifier of the governing darc, the action label,
    the message digest, and the signers' identities and raw signatures
    (package omniledger/darc is not among the sources). *)
Record darc_Request : Type := {
  req_BaseID : bytes;
  req_Action : string;
  req_Msg : bytes;
  req_Identities : list Identity;
  req_Signatures : list bytes
}.

(** Modelled from the spec: [darc.InitRequest] fills a request with its
    five arguments. *)
Definition InitRequest (baseID : bytes) (action : string) (msg : bytes)
    (ids : list Identity) (sigs : list bytes) : darc_Request :=
  {| req_BaseID := baseID;
     req_Action := action;
     req_Msg := msg;
     req_Identities := ids;
     req_Signatures := sigs |}.

Record Instruction : Type := {
  instr_ObjectID : ObjectID;
  instr_Nonce : Nonce;
  instr_Index : Z;
  instr_Length : Z;
  instr_Spawn : option Spawn;
  instr_Invoke : option Invoke;
  instr_Delete : option Delete;
  instr_Signatures : list darc_Signature
}.

(** [Instruction.Hash] *)
Definition Instruction_Hash (instr : Instruction) : bytes :=
  let h := Hasher.New in
  let h := Hasher.Write h (oid_DarcID (instr_ObjectID instr)) in
  let h := Hasher.Write h (oid_InstanceID (instr_ObjectID instr)) in
  let h := Hasher.Write h (instr_Nonce instr) in
  let b := PutUint32 (uint32 (instr_Index instr)) in
  let h := Hasher.Write h b in
  let b := PutUint32 (uint32 (instr_Length instr)) in
  let h := Hasher.Write h b in
  let '(h, args) :=
    match instr_Spawn instr, instr_Invoke instr, instr_Delete instr with
    | Some sp, _, _ =>
        let h := Hasher.Write h [0] in
        let h := Hasher.Write h (bytes_of_string (spawn_ContractID sp)) in
        (h, spawn_Args sp)
    | None, Some inv, _ =>
        let h := Hasher.Write h [1] in
        (h, invoke_Args inv)
    | None, None, Some _ =>
        let h := Hasher.Write h [2] in
        (h, [])
    | None, None, None => (h, [])
    end in
  let h :=
    fold_left
      (fun h a =>
         let h := Hasher.Write h (bytes_of_string (arg_Name a)) in
         Hasher.Write h (arg_Value a))
      args h in
  Hasher.Sum h.

(** [Instruction.DeriveID] *)
Definition DeriveID (instr : Instruction) (what : string) : ObjectID :=
  let h := Hasher.New in
  let h := Hasher.Write h (bytes_of_string what) in
  let h := Hasher.Write h (Instruction_Hash instr) in
  let h :=
    fold_left (fun h s => Hasher.Write h (sig_Signature s))
              (instr_Signatures instr) h in
  let sum := Hasher.Sum h in
  let iid := copy (repeat 0 32) sum in
  {| oid_DarcID := oid_DarcID (instr_ObjectID instr);
     oid_InstanceID := iid |}.

(** [Instruction.GetContractState] *)
Definition GetContractState (instr : Instruction) (coll : CollectionView)
  : outcome (string * bytes) :=
  match instr_Spawn instr with
  | Some sp => Ok (spawn_ContractID sp, [])
  | None =>
      let kv := Get coll (Slice (instr_ObjectID instr)) in
      match Record_ kv with
      | inl err => Err err
      | inr record =>
          match Values record with
          | inl err => Err err
          | inr cv =>
              match bytes_at cv 1 with
              | None => Panic
              | Some kind =>
                  match bytes_at cv 0 with
                  | None => Panic
                  | Some state => Ok (string_of_bytes kind, state)
                  end
              end
          end
      end
  end.

(** [Instruction.Action] *)
Definition Action (instr : Instruction) : string :=
  let a := "invalid"%string in
  match instr_Spawn instr, instr_Invoke instr, instr_Delete instr with
  | Some sp, _, _ => String.append "spawn:" (spawn_ContractID sp)
  | None, Some inv, _ => String.append "invoke:" (invoke_Command inv)
  | None, None, Some _ => "Delete"%string
  | None, None, None => a
  end.

(** [Instruction.GetType] *)
Definition GetType (instr : Instruction) : instrType :=
  match instr_Spawn instr, instr_Invoke instr, instr_Delete instr with
  | Some _, None, None => SpawnType
  | None, Some _, None => InvokeType
  | None, None, Some _ => DeleteType
  | _, _, _ => InvalidInstrType
  end.

(** The loop of [ToDarcRequest] over the signature list: [ids[i]] and
    [sigs[i]] are stored for every index [i] of the range. *)
Fixpoint collect (rest : list darc_Signature) (i : nat)
    (ids : list Identity) (sigs : list bytes)
  : option (list Identity * list bytes) :=
  match rest with
  | [] => Some (ids, sigs)
  | sig :: rest' =>
      match store ids i (sig_Signer sig) with
      | None => None
      | Some ids' =>
          match store sigs i (sig_Signature sig) with
          | None => None
          | Some sigs' => collect rest' (S i) ids' sigs'
          end
      end
  end.

(** Modelled from the spec: a policy document and the two operations of
    package darc used on it, [darc.NewFromProtobuf] (parse a serialized
    document or fail) and [GetID] (the identifier of that version). *)
Variable Darc : Type.
Variable NewFromProtobuf : bytes -> error + Darc.
Variable GetID : Darc -> bytes.

(** [Instruction.ToDarcRequest] *)
Definition ToDarcRequest (instr : Instruction) : outcome darc_Request :=
  let baseID := oid_DarcID (instr_ObjectID instr) in
  let action := Action instr in
  let n := List.length (instr_Signatures instr) in
  match collect (instr_Signatures instr) 0 (repeat zeroIdentity n) (repeat [] n) with
  | None => Panic
  | Some (ids, sigs) =>
      if String.eqb action "_evolve" then
        match instr_Invoke instr with
        | None => Panic
        | Some inv =>
            let darcBuf := Search (invoke_Args inv) "darc" in
            match NewFromProtobuf darcBuf with
            | inl err => Err err
            | inr d => Ok (InitRequest baseID action (GetID d) ids sigs)
            end
        end
      else Ok (InitRequest baseID action (Instruction_Hash instr) ids sigs)
  end.

(** [Instructions.Hash] *)
Definition Instructions_Hash (instrs : list Instruction) : bytes :=
  let h := fold_left (fun h instr => Hasher.Write h (Instruction_Hash instr))
                     instrs Hasher.New in
  Hasher.Sum h.

Record ClientTransaction : Type := {
  Instructions : list Instruction
}.

(** [ClientTransactions.Hash] *)
Definition ClientTransactions_Hash (cts : list ClientTransaction) : bytes :=
  let h := fold_left (fun h ct => Hasher.Write h (Instructions_Hash (Instructions ct)))
                     cts Hasher.New in
  Hasher.Sum h.

End Instructions.

Arguments darc_Signature : clear implicits.
Arguments darc_Request : clear implicits.
Arguments Instruction : clear implicits.
Arguments ClientTransaction : clear implicits.
Arguments ToDarcRequest {Identity} zeroIdentity {Darc} NewFromProtobuf GetID instr.

(** ** Signing *)

Section Signing.

Context {Identity : Type}.
Variable zeroIdentity : Identity.
Variable Darc : Type.
Variable NewFromProtobuf : bytes -> error + Darc.
Variable GetID : Darc -> bytes.

(** Modelled from the spec: [darc.Signer], the signer capability
    [{Identity() -> identity, Sign(digest) -> signature, error}] (package
    omniledger/darc is not among the sources). *)
Record darc_Signer : Type := {
  signer_Identity : Identity;
  signer_Sign : bytes -> error + bytes
}.

(** Modelled from the spec: [Request.Hash], the digest of an authorization
    request that the signers sign (package omniledger/darc is not among
    the sources). *)
Variable Request_Hash : darc_Request Identity -> bytes.

(** The zero value of [darc.Signature]. *)
Definition zeroSignature : darc_Signature Identity :=
  {| sig_Signature := []; sig_Signer := zeroIdentity |}.

(** [instr.Signatures = sigs] *)
Definition with_Signatures (instr : Instruction Identity)
    (sigs : list (darc_Signature Identity)) : Instruction Identity :=
  {| instr_ObjectID := instr_ObjectID instr;
     instr_Nonce := instr_Nonce instr;
     instr_Index := instr_Index instr;
     instr_Length := instr_Length instr;
     instr_Spawn := instr_Spawn instr;
     instr_Invoke := instr_Invoke instr;
     instr_Delete := instr_Delete instr;
     instr_Signatures := sigs |}.

(** The first loop of [SignBy]: [sigs[i].Signer = signer.Identity()]. *)
Fixpoint set_signers (rest : list darc_Signer) (i : nat)
    (sigs : list (darc_Signature Identity))
  : option (list (darc_Signature Identity)) :=
  match rest with
  | [] => Some sigs
  | signer :: rest' =>
      match nth_error sigs i with
      | None => None
      | Some s =>
          match store sigs i {| sig_Signature := sig_Signature s;
                                sig_Signer := signer_Identity signer |} with
          | None => None
          | Some sigs' => set_signers rest' (S i) sigs'
          end
      end
  end.

(** The second loop: [req.Identities[i] = signers[i].Identity()]. *)
Fixpoint set_identities (rest : list darc_Signer) (i : nat)
    (ids : list Identity) : option (list Identity) :=
  match rest with
  | [] => Some ids
  | signer :: rest' =>
      match store ids i (signer_Identity signer) with
      | None => None
      | Some ids' => set_identities rest' (S i) ids'
      end
  end.

(** The third loop: each signer signs the digest and its signature is
    stored; the first signer that fails ends the loop with its error. *)
Fixpoint sign_all (rest : list darc_Signer) (i : nat) (digest : bytes)
    (sigs : list (darc_Signature Identity))
  : list (darc_Signature Identity) * outcome unit :=
  match rest with
  | [] => (sigs, Ok tt)
  | signer :: rest' =>
      match signer_Sign signer digest with
      | inl err => (sigs, Err err)
      | inr sig =>
          match store sigs i {| sig_Signature := sig;
                                sig_Signer := signer_Identity signer |} with
          | None => (sigs, Panic)
          | Some sigs' => sign_all rest' (S i) digest sigs'
          end
      end
  end.

(** [Instruction.SignBy]: the instruction as the call leaves it, and what
    the call returns. *)
Definition SignBy (instr : Instruction Identity) (signers : list darc_Signer)
  : Instruction Identity * outcome unit :=
  let n := List.length signers in
  match set_signers signers 0 (repeat zeroSignature n) with
  | None => (instr, Panic)
  | Some sigs =>
      let instr := with_Signatures instr sigs in
      match ToDarcRequest zeroIdentity NewFromProtobuf GetID instr with
      | Panic => (instr, Panic)
      | Err err => (instr, Err err)
      | Ok req =>
          match set_identities signers 0 (repeat zeroIdentity n) with
          | None => (instr, Panic)
          | Some ids =>
              let req := {| req_BaseID := req_BaseID req;
                            req_Action := req_Action req;
                            req_Msg := req_Msg req;
                            req_Identities := ids;
                            req_Signatures := req_Signatures req |} in
              let digest := Request_Hash req in
              let '(sigs, result) :=
                sign_all signers 0 digest (repeat zeroSignature n) in
              (with_Signatures instr sigs, result)
          end
      end
  end.

End Signing.

Arguments darc_Signer : clear implicits.
Arguments SignBy {Identity} zeroIdentity {Darc} NewFromProtobuf GetID Request_Hash instr signers.

(** ** State changes *)

Section StateChanges.

(** [protobuf.Encode(&sc)]: the buffer and the error it returns. *)
Variable protobuf_Encode : StateChange -> bytes * option error.

(** [StateChanges.Hash], with the lines it logs at level 2. *)
Definition StateChanges_Hash (scs : list StateChange) : bytes * list string :=
  let '(h, log) :=
    fold_left
      (fun (st : Hasher.t * list string) sc =>
         let '(h, log) := st in
         let '(scBuf, err) := protobuf_Encode sc in
         let log :=
           match err with
           | Some _ => log ++ ["Couldn't marshal transaction"%string]
           | None => log
           end in
         (Hasher.Write h scBuf, log))
      scs (Hasher.New, []) in
  (Hasher.Sum h, log).

End StateChanges.

(** ** Ordering client transactions *)

(** [result[i] = result[i] ^ hs[i]] for every index [i] of [result]. *)
Definition xor_range (result hs : bytes) : bytes :=
  map (fun i => Z.lxor (nth i result 0) (nth i hs 0)) (seq 0 (List.length result)).

(** [xorTransactions] *)
Definition xorTransactions (ts : list bytes) : bytes :=
  let result := repeat 0 SHA256.Size in
  fold_left (fun result t => let hs := SHA256.Sum256 t in xor_range result hs)
            ts result.

(** The sort key of [sortWithSalt]: the digest of the salt followed by the
    encoded transaction. *)
Definition salted (salt t : bytes) : bytes := SHA256.Sum256 (salt ++ t).

(** The [less] closure of [sortWithSalt], on the elements it indexes. *)
Definition less (salt : bytes) (ti tj : bytes) : bool :=
  let h1 := salted salt ti in
  let h2 := salted salt tj in
  bytes_Compare h1 h2 =? -1.

(** What [sort.Slice] asks of [less]. *)
Definition strict_weak_order {A : Type} (lt : A -> A -> bool) : Prop :=
  (forall a, lt a a = false) /\
  (forall a b c, lt a b = true -> lt b c = true -> lt a c = true) /\
  (forall a b c, lt a b = false -> lt b c = false -> lt a c = false).

(** Package [sort] of the Go library: [sort.Slice(x, less)] rearranges [x]
    so that no element is less than one before it; it is not guaranteed to
    be stable, so nothing more is known of elements that compare equal. *)
Record SliceSorter : Type := {
  sort_Slice : forall A : Type, list A -> (A -> A -> bool) -> list A;
  sort_Slice_Permutation :
    forall (A : Type) (x : list A) (lt : A -> A -> bool),
      Permutation x (sort_Slice A x lt);
  sort_Slice_Sorted :
    forall (A : Type) (x : list A) (lt : A -> A -> bool),
      strict_weak_order lt ->
      StronglySorted (fun a b => lt b a = false) (sort_Slice A x lt)
}.

Section Ordering.

Context {Identity : Type}.

(** What [network.Unmarshal] hands back: a client transaction, or a
    message of another registered type. *)
Inductive Message : Type :=
| ClientTransactionMsg (ct : ClientTransaction Identity)
| OtherMsg.

Variable network_Marshal : ClientTransaction Identity -> error + bytes.
Variable network_Unmarshal : bytes -> error + Message.
Variable sorter : SliceSorter.

(** [sortWithSalt] *)
Definition sortWithSalt (ts : list bytes) (salt : bytes) : list bytes :=
  sort_Slice sorter bytes ts (less salt).

(** The first loop of [sortTransactions]: [bs[i]] is the encoding of
    [ts[i]], and the first failure is returned. *)
Fixpoint marshal_all (ts : list (ClientTransaction Identity)) : error + list bytes :=
  match ts with
  | [] => inr []
  | t :: rest =>
      match network_Marshal t with
      | inl err => inl err
      | inr b =>
          match marshal_all rest with
          | inl err => inl err
          | inr bs => inr (b :: bs)
          end
      end
  end.

(** The second loop: [sortedTs[i]] is decoded from [bs[i]]. *)
Fixpoint unmarshal_all (bs : list bytes) : error + list (ClientTransaction Identity) :=
  match bs with
  | [] => inr []
  | b :: rest =>
      match network_Unmarshal b with
      | inl err => inl err
      | inr OtherMsg => inl "Data of wrong type"%string
      | inr (ClientTransactionMsg ct) =>
          match unmarshal_all rest with
          | inl err => inl err
          | inr cts => inr (ct :: cts)
          end
      end
  end.

(** [sortTransactions]: the slice as the call leaves it, and the error.
    The last loop stores [*sortedTs[i]] in [ts[i]] for every index of
    [sortedTs], which has the length of [ts]. *)
Definition sortTransactions (ts : list (ClientTransaction Identity))
  : list (ClientTransaction Identity) * option error :=
  match marshal_all ts with
  | inl err => (ts, Some err)
  | inr bs =>
      let salt := xorTransactions bs in
      let bs := sortWithSalt bs salt in
      match unmarshal_all bs with
      | inl err => (ts, Some err)
      | inr sortedTs => (copy ts sortedTs, None)
      end
  end.

End Ordering.

Arguments Message : clear implicits.

(** Package [sort] sorts short slices by insertion: each element in turn
    moves left past the elements it is less than. *)
Fixpoint insert_sorted {A : Type} (lt : A -> A -> bool) (x : A) (l : list A) : list A :=
  match l with
  | [] => [x]
  | y :: l' => if lt x y then x :: l else y :: insert_sorted lt x l'
  end.

Definition insertionSort (A : Type) (x : list A) (lt : A -> A -> bool) : list A :=
  fold_left (fun sorted e => insert_sorted lt e sorted) x [].

(** ** Sample inputs *)

Module Examples.

Definition zero_nonce : Nonce := repeat 0 32.

Definition genesis : ObjectID :=
  {| oid_DarcID := [1; 2; 3; 4]; oid_InstanceID := zero_nonce |}.

(** Identities are signers' names here. *)
Definition instruction (index : Z) (sp : option Spawn) (inv : option Invoke)
    (del : option Delete) (sigs : list (darc_Signature string))
  : Instruction string :=
  {| instr_ObjectID := genesis;
     instr_Nonce := zero_nonce;
     instr_Index := index;
     instr_Length := 1;
     instr_Spawn := sp;
     instr_Invoke := inv;
     instr_Delete := del;
     instr_Signatures := sigs |}.

Definition no_payload : Instruction string :=
  instruction 0 None None None [].

Definition spawn_and_invoke : Instruction string :=
  instruction 0
    (Some {| spawn_ContractID := "coin"; spawn_Args := [] |})
    (Some {| invoke_Command := "transfer"; invoke_Args := [] |})
    None [].

Definition evolve_without_darc : Instruction string :=
  instruction 0 None
    (Some {| invoke_Command := "evolve"; invoke_Args := [] |})
    None [].

Definition evolve_with_darc : Instruction string :=
  instruction 0 None
    (Some {| invoke_Command := "evolve";
             invoke_Args := [ {| arg_Name := "darc"; arg_Value := [10; 20; 30] |} ] |})
    None [].

Definition signed_delete : Instruction string :=
  instruction 0 None None (Some Delete_struct)
    [ {| sig_Signature := [7; 7]; sig_Signer := "alice"%string |};
      {| sig_Signature := [8]; sig_Signer := "bob"%string |} ].

Definition delete_at (index : Z) : Instruction string :=
  instruction index None None (Some Delete_struct) [].

(** A store whose every key holds a record with the fields [cv]. *)
Definition store_of (cv : list field_value) : CollectionView :=
  {| Get := fun _ => {| Record_ := inr {| Values := inr cv |} |} |}.

(** A codec for transactions of bare Delete instructions: one byte per
    instruction, its index. *)
Definition index_Marshal (ct : ClientTransaction string) : error + bytes :=
  let indexes := map instr_Index (Instructions ct) in
  if forallb (fun i => (0 <=? i) && (i <? 256)) indexes
  then inr indexes
  else inl "index does not fit a byte"%string.

Definition index_Unmarshal (b : bytes) : error + Message string :=
  inr (ClientTransactionMsg {| Instructions := map delete_at b |}).

Definition tx (indexes : list Z) : ClientTransaction string :=
  {| Instructions := map delete_at indexes |}.

Definition A : ClientTransaction string := tx [0; 1].
Definition B : ClientTransaction string := tx [0].
Definition C : ClientTransaction string := tx [0; 1; 2].
Definition oversized : ClientTransaction string := tx [300].

(** An encoder that rejects state changes whose action is not one of
    Create, Update, Remove. *)
Definition action_Encode (sc : StateChange) : bytes * option error :=
  if (1 <=? sc_StateAction sc) && (sc_StateAction sc <=? 3)
  then (sc_StateAction sc :: sc_ObjectID sc ++ sc_ContractID sc ++ sc_Value sc, None)
  else ([], Some "Invalid stateChange"%string).

Definition created : StateChange :=
  NewStateChange Create genesis "coin" [100].
Definition unknown_action : StateChange :=
  NewStateChange 9 genesis "coin" [1].
Definition removed : StateChange :=
  NewStateChange Remove genesis "coin" [].

(** Signers for [SignBy]: each signs with a mark of its own followed by
    the first bytes of the digest; one has no key. *)
Definition alice : darc_Signer string :=
  {| signer_Identity := "alice"%string;
     signer_Sign := fun digest => inr (65 :: firstn 2 digest) |}.

Definition bob : darc_Signer string :=
  {| signer_Identity := "bob"%string;
     signer_Sign := fun digest => inr (66 :: firstn 2 digest) |}.

Definition keyless : darc_Signer string :=
  {| signer_Identity := "carol"%string;
     signer_Sign := fun _ => inl "no private key"%string |}.

(** A digest of requests: the base ID, the label, the message and the
    signers' names. *)
Definition request_digest (req : darc_Request string) : bytes :=
  SHA256.Sum256
    (req_BaseID req ++ bytes_of_string (req_Action req) ++ req_Msg req
       ++ List.concat (map bytes_of_string (req_Identities req))).

(** A parser of darcs that accepts nothing. *)
Definition no_darc (buf : bytes) : error + unit := inl "not a darc"%string.

(** A codec that decodes nothing. *)
Definition garbled_Unmarshal (b : bytes) : error + Message string :=
  inl "unexpected end of buffer"%string.

End Examples.

(** * Properties *)

(** ** Slices and encodings *)

Lemma store_at_length {A : Type} (pre post : list A) (y x : A) :
  store (pre ++ y :: post) (List.length pre) x = Some (pre ++ x :: post).
Proof.
  induction pre as [| p pre IH]; simpl.
  - reflexivity.
  - rewrite IH. reflexivity.
Qed.

Lemma copy_same_length {A : Type} (dst src : list A) :
  List.length src = List.length dst -> copy dst src = src.
Proof.
  intros Hlen. unfold copy.
  rewrite <- Hlen, firstn_all, skipn_all2 by lia.
  apply app_nil_r.
Qed.

(** A fixed-width little-endian 32-bit field: byte [k] holds bits
    [8k .. 8k+7]. *)
Definition le32 (x : Z) : bytes :=
  map (fun k => Z.land (Z.shiftr x (8 * k)) 255) [0; 1; 2; 3].

Lemma low_byte_of_uint32 (x k : Z) :
  0 <= k <= 24 ->
  (uint32 x / 2 ^ k) mod 256 = Z.land (Z.shiftr x k) 255.
Proof.
  intros Hk. unfold uint32.
  change 255 with (Z.ones 8). change 256 with (2 ^ 8).
  rewrite Z.land_ones, Z.shiftr_div_pow2 by lia.
  apply Z.bits_inj'. intros m Hm.
  rewrite (Z.testbit_mod_pow2 _ 8 m) by lia.
  rewrite (Z.testbit_mod_pow2 (x / 2 ^ k) 8 m) by lia.
  destruct (Z.ltb_spec m 8) as [Hlt | Hge]; cbn [andb]; [| reflexivity].
  rewrite !Z.div_pow2_bits by lia.
  rewrite Z.testbit_mod_pow2 by lia.
  destruct (Z.ltb_spec (m + k) 32); [reflexivity | lia].
Qed.

Lemma PutUint32_uint32 (x : Z) : PutUint32 (uint32 x) = le32 x.
Proof.
  unfold PutUint32, le32. cbn [map].
  rewrite <- (low_byte_of_uint32 x (8 * 0)) by lia.
  rewrite <- (low_byte_of_uint32 x (8 * 1)) by lia.
  rewrite <- (low_byte_of_uint32 x (8 * 2)) by lia.
  rewrite <- (low_byte_of_uint32 x (8 * 3)) by lia.
  change (2 ^ (8 * 0)) with 1. rewrite Z.div_1_r.
  reflexivity.
Qed.

(** ** Instructions: digest, derived identifier, label and type *)

Section InstructionFacts.

Context {Identity : Type}.
Variable zeroIdentity : Identity.

(** The bytes of an argument list: each name followed by its value. *)
Definition args_bytes (args : Arguments) : bytes :=
  flat_map (fun a => bytes_of_string (arg_Name a) ++ arg_Value a) args.

(** The five fields every digest starts with. *)
Definition Hash_header (instr : Instruction Identity) : bytes :=
  oid_DarcID (instr_ObjectID instr) ++ oid_InstanceID (instr_ObjectID instr)
    ++ instr_Nonce instr ++ le32 (instr_Index instr) ++ le32 (instr_Length instr).

(** The byte layout of the digest input as the specification words it:
    the header, then the tag of the payload with the contract kind of a
    Spawn and the payload's arguments; with several payloads set the first
    of Spawn, Invoke, Delete counts, with none set nothing follows. *)
Definition Hash_layout (instr : Instruction Identity) : bytes :=
  Hash_header instr ++
  match instr_Spawn instr, instr_Invoke instr, instr_Delete instr with
  | Some sp, _, _ =>
      [0] ++ bytes_of_string (spawn_ContractID sp) ++ args_bytes (spawn_Args sp)
  | None, Some inv, _ => [1] ++ args_bytes (invoke_Args inv)
  | None, None, Some _ => [2]
  | None, None, None => []
  end.

(** How many of the three payloads are set. *)
Definition payloads (instr : Instruction Identity) : nat :=
  (match instr_Spawn instr with Some _ => 1 | None => 0 end
   + match instr_Invoke instr with Some _ => 1 | None => 0 end
   + match instr_Delete instr with Some _ => 1 | None => 0 end)%nat.

Lemma write_args (args : Arguments) (h : Hasher.t) :
  fold_left
    (fun h a =>
       let h := Hasher.Write h (bytes_of_string (arg_Name a)) in
       Hasher.Write h (arg_Value a))
    args h
  = h ++ args_bytes args.
Proof.
  revert h. induction args as [| a args IH]; intros h; simpl.
  - symmetry. apply app_nil_r.
  - rewrite IH. unfold Hasher.Write. rewrite <- !app_assoc. reflexivity.
Qed.

Lemma Instruction_Hash_layout (instr : Instruction Identity) :
  Instruction_Hash instr = SHA256.Sum256 (Hash_layout instr).
Proof.
  unfold Instruction_Hash, Hasher.Sum.
  destruct (instr_Spawn instr) as [sp |] eqn:Hsp;
    [| destruct (instr_Invoke instr) as [inv |] eqn:Hinv;
       [| destruct (instr_Delete instr) as [d |] eqn:Hdel]];
    rewrite write_args; apply f_equal;
    unfold Hash_layout, Hash_header, Hasher.Write, Hasher.New;
    rewrite ?Hsp, ?Hinv, ?Hdel, !PutUint32_uint32;
    cbn [app]; rewrite <- ?app_assoc; cbn [app]; rewrite ?app_nil_r;
    reflexivity.
Qed.

(** C7 (as amended).  The digest of an instruction is the SHA-256 digest of:
    the darc ID, the instance ID, the nonce, the index and the length as
    little-endian 32-bit fields, then -- when a payload is set -- the tag of
    the first set payload in the order Spawn (0), Invoke (1), Delete (2),
    the contract kind when that payload is Spawn, and each argument's name
    followed by its value in list order; when no payload is set the digest
    covers the five leading fields only.  The command of an Invoke is not
    part of the input: two instructions that differ only there have the
    same digest. *)
Theorem Instruction_Hash_byte_layout :
  forall instr : Instruction Identity,
    Instruction_Hash instr = SHA256.Sum256 (Hash_layout instr) /\
    forall (command : string) (args : Arguments),
      Instruction_Hash
        {| instr_ObjectID := instr_ObjectID instr;
           instr_Nonce := instr_Nonce instr;
           instr_Index := instr_Index instr;
           instr_Length := instr_Length instr;
           instr_Spawn := instr_Spawn instr;
           instr_Invoke := Some {| invoke_Command := command; invoke_Args := args |};
           instr_Delete := instr_Delete instr;
           instr_Signatures := instr_Signatures instr |}
      = Instruction_Hash
        {| instr_ObjectID := instr_ObjectID instr;
           instr_Nonce := instr_Nonce instr;
           instr_Index := instr_Index instr;
           instr_Length := instr_Length instr;
           instr_Spawn := instr_Spawn instr;
           instr_Invoke := Some {| invoke_Command := ""; invoke_Args := args |};
           instr_Delete := instr_Delete instr;
           instr_Signatures := instr_Signatures instr |}.
Proof.
  intros instr. split.
  - apply Instruction_Hash_layout.
  - intros command args. rewrite !Instruction_Hash_layout. reflexivity.
Qed.

Lemma write_signatures (sigs : list (darc_Signature Identity)) (h : Hasher.t) :
  fold_left (fun h s => Hasher.Write h (sig_Signature s)) sigs h
  = h ++ List.concat (map sig_Signature sigs).
Proof.
  revert h. induction sigs as [| s sigs IH]; intros h; simpl.
  - symmetry. apply app_nil_r.
  - rewrite IH. unfold Hasher.Write. rewrite <- app_assoc. reflexivity.
Qed.

(** C9.  The derived identifier keeps the instruction's darc ID, and its
    instance ID is the SHA-256 digest of the purpose string, then the
    instruction's digest, then the raw signature bytes of every attached
    signature in list order; the signers' identities do not enter it:
    replacing every signer leaves the identifier unchanged. *)
Theorem DeriveID_digest :
  forall (instr : Instruction Identity) (what : string),
    oid_DarcID (DeriveID instr what) = oid_DarcID (instr_ObjectID instr) /\
    oid_InstanceID (DeriveID instr what)
      = SHA256.Sum256
          (bytes_of_string what ++ Instruction_Hash instr
             ++ List.concat (map sig_Signature (instr_Signatures instr))) /\
    Nonce_wf (oid_InstanceID (DeriveID instr what)) /\
    forall other : Identity -> Identity,
      DeriveID
        {| instr_ObjectID := instr_ObjectID instr;
           instr_Nonce := instr_Nonce instr;
           instr_Index := instr_Index instr;
           instr_Length := instr_Length instr;
           instr_Spawn := instr_Spawn instr;
           instr_Invoke := instr_Invoke instr;
           instr_Delete := instr_Delete instr;
           instr_Signatures :=
             map (fun s => {| sig_Signature := sig_Signature s;
                              sig_Signer := other (sig_Signer s) |})
                 (instr_Signatures instr) |} what
      = DeriveID instr what.
Proof.
  intros instr what.
  assert (Hiid : forall i : Instruction Identity,
             oid_InstanceID (DeriveID i what)
             = SHA256.Sum256
                 (bytes_of_string what ++ Instruction_Hash i
                    ++ List.concat (map sig_Signature (instr_Signatures i)))).
  { intros i. unfold DeriveID. cbn [oid_InstanceID].
    rewrite write_signatures. unfold Hasher.Sum, Hasher.Write, Hasher.New.
    rewrite copy_same_length.
    - cbn [app]. rewrite <- app_assoc. reflexivity.
    - rewrite Sum256_length, repeat_length. reflexivity. }
  repeat split.
  - apply Hiid.
  - rewrite Hiid. apply Sum256_length.
  - intros other.
    assert (Heq : forall a b : ObjectID,
               oid_DarcID a = oid_DarcID b ->
               oid_InstanceID a = oid_InstanceID b -> a = b).
    { intros [a1 a2] [b1 b2]; simpl; intros -> ->; reflexivity. }
    apply Heq; [reflexivity |].
    rewrite !Hiid. cbn [instr_Signatures].
    rewrite map_map. cbn [sig_Signature].
    rewrite !Instruction_Hash_layout. reflexivity.
Qed.

End InstructionFacts.

(** ** Labels, types and authorization requests *)

Section RequestFacts.

Context {Identity : Type}.
Variable zeroIdentity : Identity.
Variable Darc : Type.
Variable NewFromProtobuf : bytes -> error + Darc.
Variable GetID : Darc -> bytes.

(** No label that [Action] builds is the string ["_evolve"]: the labels
    are ["invalid"], ["Delete"], or start with ["spawn:"] or ["invoke:"]. *)
Lemma Action_never_evolve (instr : Instruction Identity) :
  Action instr <> "_evolve"%string.
Proof.
  unfold Action.
  destruct (instr_Spawn instr) as [sp |];
    [| destruct (instr_Invoke instr) as [inv |];
       [| destruct (instr_Delete instr) as [d |]]];
    simpl; discriminate.
Qed.

Lemma collect_from (rest : list (darc_Signature Identity)) :
  forall (ids : list Identity) (sigs : list bytes),
    List.length ids = List.length sigs ->
    collect rest (List.length ids)
            (ids ++ repeat zeroIdentity (List.length rest))
            (sigs ++ repeat [] (List.length rest))
    = Some (ids ++ map sig_Signer rest, sigs ++ map sig_Signature rest).
Proof.
  induction rest as [| s rest IH]; intros ids sigs Hlen.
  - simpl. rewrite !app_nil_r. reflexivity.
  - cbn [collect List.length repeat map].
    rewrite store_at_length, Hlen, store_at_length.
    specialize (IH (ids ++ [sig_Signer s]) (sigs ++ [sig_Signature s])).
    rewrite !length_app in IH. cbn [List.length] in IH.
    rewrite <- !app_assoc in IH. cbn [app] in IH.
    replace (S (List.length sigs)) with (List.length sigs + 1)%nat by lia.
    rewrite <- Hlen at 1.
    apply IH. lia.
Qed.

Lemma collect_all (sigs : list (darc_Signature Identity)) :
  collect sigs 0 (repeat zeroIdentity (List.length sigs))
          (repeat [] (List.length sigs))
  = Some (map sig_Signer sigs, map sig_Signature sigs).
Proof. exact (collect_from sigs [] [] eq_refl). Qed.

(** C8.  When the label is not the evolution label, [ToDarcRequest]
    succeeds, and the request carries the instruction's darc ID, the label
    of [Action], the digest of [Instruction.Hash], and the signers and raw
    signatures of the signature list in its order. *)
Theorem ToDarcRequest_regular_action :
  forall instr : Instruction Identity,
    Action instr <> "_evolve"%string ->
    ToDarcRequest zeroIdentity NewFromProtobuf GetID instr
    = Ok {| req_BaseID := oid_DarcID (instr_ObjectID instr);
            req_Action := Action instr;
            req_Msg := Instruction_Hash instr;
            req_Identities := map sig_Signer (instr_Signatures instr);
            req_Signatures := map sig_Signature (instr_Signatures instr) |}.
Proof.
  intros instr Hact. unfold ToDarcRequest.
  rewrite collect_all.
  apply String.eqb_neq in Hact. rewrite Hact.
  reflexivity.
Qed.

(** What the branch for darc evolution does: it needs an Invoke (a nil
    dereference otherwise), fails with the parser's error on the ["darc"]
    argument, and else puts the identifier of the new darc in the request.
    No instruction reaches it, as [Action_never_evolve] shows. *)
Lemma ToDarcRequest_evolution_branch (instr : Instruction Identity) :
  Action instr = "_evolve"%string ->
  ToDarcRequest zeroIdentity NewFromProtobuf GetID instr
  = match instr_Invoke instr with
    | None => Panic
    | Some inv =>
        match NewFromProtobuf (Search (invoke_Args inv) "darc") with
        | inl err => Err err
        | inr d =>
            Ok {| req_BaseID := oid_DarcID (instr_ObjectID instr);
                  req_Action := "_evolve";
                  req_Msg := GetID d;
                  req_Identities := map sig_Signer (instr_Signatures instr);
                  req_Signatures := map sig_Signature (instr_Signatures instr) |}
        end
    end.
Proof.
  intros Hact. unfold ToDarcRequest.
  rewrite collect_all, Hact. cbn [String.eqb Ascii.eqb Bool.eqb].
  reflexivity.
Qed.

(** The branch for darc evolution is never taken: whatever the
    instruction, the request is built, and its message is the digest of
    the instruction. *)
Lemma ToDarcRequest_always_regular (instr : Instruction Identity) :
  exists req,
    ToDarcRequest zeroIdentity NewFromProtobuf GetID instr = Ok req /\
    req_Msg req = Instruction_Hash instr.
Proof.
  unfold ToDarcRequest. rewrite collect_all.
  destruct (String.eqb_spec (Action instr) "_evolve") as [Heq | Hne].
  - destruct (Action_never_evolve instr Heq).
  - eexists. split; reflexivity.
Qed.

(** C2 (as amended).  [GetType] is the invalid type exactly when the number
    of set payloads is not one.  [Action] is ["invalid"] exactly when no
    payload is set; with several set, the label is that of the first in the
    order Spawn, Invoke, Delete. *)
Theorem Action_invalid_iff_no_payload :
  forall instr : Instruction Identity,
    (GetType instr = InvalidInstrType <-> payloads instr <> 1%nat) /\
    (Action instr = "invalid"%string <-> payloads instr = 0%nat) /\
    (forall oid nonce index len sp inv del (sigs : list (darc_Signature Identity)),
        Action {| instr_ObjectID := oid; instr_Nonce := nonce;
                  instr_Index := index; instr_Length := len;
                  instr_Spawn := Some sp; instr_Invoke := inv;
                  instr_Delete := del; instr_Signatures := sigs |}
        = String.append "spawn:" (spawn_ContractID sp)) /\
    (forall oid nonce index len inv del (sigs : list (darc_Signature Identity)),
        Action {| instr_ObjectID := oid; instr_Nonce := nonce;
                  instr_Index := index; instr_Length := len;
                  instr_Spawn := None; instr_Invoke := Some inv;
                  instr_Delete := del; instr_Signatures := sigs |}
        = String.append "invoke:" (invoke_Command inv)).
Proof.
  intros instr. unfold GetType, Action, payloads.
  destruct (instr_Spawn instr) as [sp |];
    destruct (instr_Invoke instr) as [inv |];
    destruct (instr_Delete instr) as [d |];
    simpl; repeat split; intros; try reflexivity; try discriminate;
    try lia; try congruence.
Qed.

(** What [GetContractState] does on a Spawn, and with the errors of the
    store: the payload's contract kind with no state, without a lookup;
    otherwise the error of [Record] or of [Values] as it comes. *)
Lemma GetContractState_Spawn (instr : Instruction Identity)
    (coll : CollectionView) (sp : Spawn) :
  instr_Spawn instr = Some sp ->
  GetContractState instr coll = Ok (spawn_ContractID sp, []).
Proof. intros Hsp. unfold GetContractState. rewrite Hsp. reflexivity. Qed.

Lemma GetContractState_store_error (instr : Instruction Identity)
    (coll : CollectionView) (err : error) :
  instr_Spawn instr = None ->
  Record_ (Get coll (Slice (instr_ObjectID instr))) = inl err \/
  (exists record,
      Record_ (Get coll (Slice (instr_ObjectID instr))) = inr record /\
      Values record = inl err) ->
  GetContractState instr coll = Err err.
Proof.
  intros Hsp [Hrec | [record [Hrec Hval]]];
    unfold GetContractState; rewrite Hsp, Hrec; [| rewrite Hval]; reflexivity.
Qed.

Lemma GetContractState_two_fields (instr : Instruction Identity)
    (coll : CollectionView) (record : collection_Record)
    (state kind : bytes) (more : list field_value) :
  instr_Spawn instr = None ->
  Record_ (Get coll (Slice (instr_ObjectID instr))) = inr record ->
  Values record = inr (BytesValue state :: BytesValue kind :: more) ->
  GetContractState instr coll = Ok (string_of_bytes kind, state).
Proof.
  intros Hsp Hrec Hval. unfold GetContractState.
  rewrite Hsp, Hrec, Hval. reflexivity.
Qed.

End RequestFacts.

(** ** The digest of a sequence of state changes *)

Section StateChangeFacts.

Variable protobuf_Encode : StateChange -> bytes * option error.

(** The entries whose encoding succeeds. *)
Definition encodable (sc : StateChange) : bool :=
  match snd (protobuf_Encode sc) with
  | None => true
  | Some _ => false
  end.

Definition marshal_failure : string := "Couldn't marshal transaction".

Lemma StateChanges_Hash_loop (scs : list StateChange) :
  forall (h : Hasher.t) (log : list string),
    fold_left
      (fun (st : Hasher.t * list string) sc =>
         let '(h, log) := st in
         let '(scBuf, err) := protobuf_Encode sc in
         let log :=
           match err with
           | Some _ => log ++ [marshal_failure]
           | None => log
           end in
         (Hasher.Write h scBuf, log))
      scs (h, log)
    = (h ++ List.concat (map (fun sc => fst (protobuf_Encode sc)) scs),
       log ++ repeat marshal_failure
                     (List.length (filter (fun sc => negb (encodable sc)) scs))).
Proof.
  induction scs as [| sc scs IH]; intros h log.
  - simpl. rewrite !app_nil_r. reflexivity.
  - cbn [fold_left map List.concat filter].
    assert (Hok : encodable sc
                  = match snd (protobuf_Encode sc) with
                    | None => true
                    | Some _ => false
                    end) by reflexivity.
    rewrite Hok.
    destruct (protobuf_Encode sc) as [buf [e |]];
      rewrite IH; cbn [fst snd negb List.length repeat];
      unfold Hasher.Write; rewrite <- !app_assoc; reflexivity.
Qed.

Lemma concat_encodable (scs : list StateChange) :
  (forall sc e, snd (protobuf_Encode sc) = Some e -> fst (protobuf_Encode sc) = []) ->
  List.concat (map (fun sc => fst (protobuf_Encode sc)) scs)
  = List.concat (map (fun sc => fst (protobuf_Encode sc)) (filter encodable scs)).
Proof.
  intros Hnil. induction scs as [| sc scs IH]; [reflexivity |].
  cbn [map List.concat filter]. unfold encodable at 1.
  destruct (snd (protobuf_Encode sc)) as [e |] eqn:Herr.
  - rewrite (Hnil sc e Herr). exact IH.
  - cbn [map List.concat]. rewrite IH. reflexivity.
Qed.

(** C10.  [StateChanges.Hash] has no error result: it always returns a
    digest of 32 bytes.  Provided [protobuf.Encode] hands back no bytes
    with an error, an entry whose encoding fails adds one logged line and
    nothing to the running hash, so the digest is that of the encodings of
    the other entries alone. *)
Theorem StateChanges_Hash_omits_failures :
  (forall sc e, snd (protobuf_Encode sc) = Some e -> fst (protobuf_Encode sc) = []) ->
  forall scs : list StateChange,
    List.length (fst (StateChanges_Hash protobuf_Encode scs)) = 32%nat /\
    fst (StateChanges_Hash protobuf_Encode scs)
      = SHA256.Sum256
          (List.concat (map (fun sc => fst (protobuf_Encode sc))
                            (filter encodable scs))) /\
    snd (StateChanges_Hash protobuf_Encode scs)
      = repeat marshal_failure
               (List.length (filter (fun sc => negb (encodable sc)) scs)).
Proof.
  intros Hnil scs. unfold StateChanges_Hash.
  fold marshal_failure. rewrite StateChanges_Hash_loop.
  cbn [fst snd]. unfold Hasher.Sum, Hasher.New. cbn [app].
  repeat split.
  - apply Sum256_length.
  - rewrite <- concat_encodable by exact Hnil. reflexivity.
Qed.

End StateChangeFacts.

(** ** The order of [bytes.Compare] *)

Ltac compare_heads :=
  repeat match goal with
         | |- context [?p <? ?q] => destruct (Z.ltb_spec p q)
         | H : context [?p <? ?q] |- _ => destruct (Z.ltb_spec p q)
         end.

Lemma bytes_Compare_refl (a : bytes) : bytes_Compare a a = 0.
Proof.
  induction a as [| x a IH]; simpl; [reflexivity |].
  rewrite Z.ltb_irrefl. exact IH.
Qed.

Lemma bytes_Compare_lt_trans (a : bytes) :
  forall b c,
    bytes_Compare a b = -1 -> bytes_Compare b c = -1 -> bytes_Compare a c = -1.
Proof.
  induction a as [| x a IH]; intros [| y b] [| z c]; simpl;
    try discriminate; try reflexivity.
  intros Hab Hbc. compare_heads; try lia; try discriminate.
  eapply IH; eassumption.
Qed.

Lemma bytes_Compare_ge_trans (a : bytes) :
  forall b c,
    bytes_Compare a b <> -1 -> bytes_Compare b c <> -1 -> bytes_Compare a c <> -1.
Proof.
  induction a as [| x a IH]; intros [| y b] [| z c]; simpl;
    try congruence; try discriminate.
  intros Hab Hbc. compare_heads; try lia; try congruence; try discriminate.
  eapply IH; eassumption.
Qed.

Lemma bytes_Compare_antisym (a : bytes) :
  forall b, bytes_Compare a b <> -1 -> bytes_Compare b a <> -1 -> a = b.
Proof.
  induction a as [| x a IH]; intros [| y b]; simpl;
    try congruence; try reflexivity.
  intros Hab Hba. compare_heads; try lia; try congruence.
  assert (x = y) by lia. subst y. f_equal. apply IH; assumption.
Qed.

Lemma less_strict_weak_order (salt : bytes) : strict_weak_order (less salt).
Proof.
  unfold strict_weak_order, less. repeat split.
  - intros a. rewrite bytes_Compare_refl. reflexivity.
  - intros a b c Hab Hbc. apply Z.eqb_eq in Hab, Hbc. apply Z.eqb_eq.
    eapply bytes_Compare_lt_trans; eassumption.
  - intros a b c Hab Hbc. apply Z.eqb_neq in Hab, Hbc. apply Z.eqb_neq.
    eapply bytes_Compare_ge_trans; eassumption.
Qed.

(** ** Lists: folds over permutations, sorted permutations *)

Lemma fold_left_Permutation {A B : Type} (f : A -> B -> A) :
  (forall a x y, f (f a x) y = f (f a y) x) ->
  forall l1 l2, Permutation l1 l2 ->
  forall a, fold_left f l1 a = fold_left f l2 a.
Proof.
  intros Hswap l1 l2 Hperm.
  induction Hperm as [| x l1 l2 _ IH | x y l | l1 l2 l3 _ IH1 _ IH2]; intros a; simpl.
  - reflexivity.
  - apply IH.
  - rewrite Hswap. reflexivity.
  - rewrite IH1. apply IH2.
Qed.

Lemma StronglySorted_Permutation_eq {A : Type} (R : A -> A -> Prop) (l1 : list A) :
  forall l2,
    (forall a b, In a l1 -> In b l1 -> R a b -> R b a -> a = b) ->
    StronglySorted R l1 -> StronglySorted R l2 -> Permutation l1 l2 ->
    l1 = l2.
Proof.
  induction l1 as [| a l1 IH]; intros l2 Hanti Hs1 Hs2 Hperm.
  - symmetry. apply Permutation_nil. exact Hperm.
  - destruct l2 as [| b l2].
    + apply Permutation_sym, Permutation_nil in Hperm. discriminate.
    + apply StronglySorted_inv in Hs1. destruct Hs1 as [Hs1 Ha].
      apply StronglySorted_inv in Hs2. destruct Hs2 as [Hs2 Hb].
      rewrite Forall_forall in Ha, Hb.
      assert (Hbin : In b (a :: l1)).
      { eapply Permutation_in; [apply Permutation_sym; exact Hperm | left; reflexivity]. }
      assert (Hain : In a (b :: l2)).
      { eapply Permutation_in; [exact Hperm | left; reflexivity]. }
      assert (Heq : a = b).
      { destruct Hbin as [Hba | Hbin]; [exact Hba |].
        destruct Hain as [Hab | Hain]; [symmetry; exact Hab |].
        apply Hanti; [left; reflexivity | right; exact Hbin | apply Ha, Hbin | apply Hb, Hain]. }
      subst b. f_equal.
      apply IH; try assumption.
      * intros x y Hx Hy. apply Hanti; right; assumption.
      * eapply Permutation_cons_inv. exact Hperm.
Qed.

Lemma map_Some_inj {A : Type} (l1 : list A) :
  forall l2, map Some l1 = map Some l2 -> l1 = l2.
Proof.
  induction l1 as [| x l1 IH]; intros [| y l2]; simpl; try discriminate.
  - reflexivity.
  - intros H. injection H as Hxy Hrest. subst y. f_equal. apply IH, Hrest.
Qed.

(** ** The salt *)

Lemma xor_range_length (result hs : bytes) :
  List.length (xor_range result hs) = List.length result.
Proof. unfold xor_range. rewrite length_map, length_seq. reflexivity. Qed.

Lemma nth_map_seq {A : Type} (f : nat -> A) (n i : nat) (d : A) :
  (i < n)%nat -> nth i (map f (seq 0 n)) d = f i.
Proof.
  intros Hi.
  rewrite nth_indep with (d' := f O) by (rewrite length_map, length_seq; exact Hi).
  rewrite (map_nth f), seq_nth by exact Hi. reflexivity.
Qed.

Lemma xor_range_nth (result hs : bytes) (i : nat) :
  (i < List.length result)%nat ->
  nth i (xor_range result hs) 0 = Z.lxor (nth i result 0) (nth i hs 0).
Proof.
  intros Hi. unfold xor_range. rewrite nth_map_seq by exact Hi. reflexivity.
Qed.

Lemma xor_range_swap (result h1 h2 : bytes) :
  xor_range (xor_range result h1) h2 = xor_range (xor_range result h2) h1.
Proof.
  unfold xor_range at 1 3. rewrite !xor_range_length.
  apply map_ext_in. intros i Hi. apply in_seq in Hi.
  rewrite !xor_range_nth by lia.
  rewrite !Z.lxor_assoc. f_equal. apply Z.lxor_comm.
Qed.

(** The salt does not depend on the order of the encoded transactions. *)
Lemma xorTransactions_Permutation (bs1 bs2 : list bytes) :
  Permutation bs1 bs2 -> xorTransactions bs1 = xorTransactions bs2.
Proof.
  intros Hperm. unfold xorTransactions.
  apply fold_left_Permutation; [| exact Hperm].
  intros a x y. apply xor_range_swap.
Qed.

Lemma bytes_Compare_flip (a : bytes) :
  forall b, bytes_Compare a b = - bytes_Compare b a.
Proof.
  induction a as [| x a IH]; intros [| y b]; simpl; try reflexivity.
  compare_heads; try lia. apply IH.
Qed.

Lemma xorTransactions_length (bs : list bytes) :
  List.length (xorTransactions bs) = SHA256.Size.
Proof.
  unfold xorTransactions.
  assert (H : forall r, List.length
                          (fold_left (fun result t => xor_range result (SHA256.Sum256 t)) bs r)
                        = List.length r).
  { induction bs as [| b bs IH]; intros r; simpl; [reflexivity |].
    rewrite IH. apply xor_range_length. }
  rewrite H. apply repeat_length.
Qed.

(** Byte [i] of the salt is the XOR of byte [i] of the digest of every
    encoded transaction. *)
Lemma xorTransactions_byte (bs : list bytes) (i : nat) :
  (i < SHA256.Size)%nat ->
  nth i (xorTransactions bs) 0
  = fold_left Z.lxor (map (fun b => nth i (SHA256.Sum256 b) 0) bs) 0.
Proof.
  intros Hi. unfold xorTransactions.
  assert (H : forall r,
             List.length r = SHA256.Size ->
             nth i (fold_left (fun result t => xor_range result (SHA256.Sum256 t)) bs r) 0
             = fold_left Z.lxor (map (fun b => nth i (SHA256.Sum256 b) 0) bs) (nth i r 0)).
  { induction bs as [| b bs IH]; intros r Hr; simpl; [reflexivity |].
    rewrite IH by (rewrite xor_range_length; exact Hr).
    rewrite xor_range_nth by (rewrite Hr; exact Hi). reflexivity. }
  rewrite H by apply repeat_length.
  rewrite nth_repeat. reflexivity.
Qed.

(** ** [sortTransactions] *)

Section OrderingFacts.

Context {Identity : Type}.
Variable network_Marshal : ClientTransaction Identity -> error + bytes.
Variable network_Unmarshal : bytes -> error + Message Identity.
Variable sorter : SliceSorter.

(** The encoding of a transaction, when [network.Marshal] gives one. *)
Definition encoding (t : ClientTransaction Identity) : bytes :=
  match network_Marshal t with
  | inr b => b
  | inl _ => []
  end.

(** The transaction a buffer decodes to, when it does. *)
Definition decoded (b : bytes) : option (ClientTransaction Identity) :=
  match network_Unmarshal b with
  | inr (ClientTransactionMsg ct) => Some ct
  | _ => None
  end.

(** Decoding fails: [network.Unmarshal] returns an error, or a message
    that is not a client transaction. *)
Definition decode_fails (b : bytes) : Prop :=
  (exists err, network_Unmarshal b = inl err) \/ network_Unmarshal b = inr OtherMsg.

(** Distinct encodings have distinct sort keys under the salt. *)
Definition distinct_keys (salt : bytes) (bs : list bytes) : Prop :=
  forall b1 b2, In b1 bs -> In b2 bs -> salted salt b1 = salted salt b2 -> b1 = b2.

(** Decoding undoes encoding on the transactions of [ts]. *)
Definition lossless_on (ts : list (ClientTransaction Identity)) : Prop :=
  forall t b, In t ts -> network_Marshal t = inr b ->
              network_Unmarshal b = inr (ClientTransactionMsg t).

Lemma marshal_all_inr (ts : list (ClientTransaction Identity)) :
  forall bs,
    marshal_all network_Marshal ts = inr bs ->
    bs = map encoding ts /\
    Forall (fun t => network_Marshal t = inr (encoding t)) ts.
Proof.
  induction ts as [| t ts IH]; intros bs H; simpl in H.
  - injection H as <-. split; [reflexivity | constructor].
  - destruct (network_Marshal t) as [e | b] eqn:Ht; [discriminate |].
    destruct (marshal_all network_Marshal ts) as [e | bs'] eqn:Hts; [discriminate |].
    injection H as <-. destruct (IH bs' eq_refl) as [-> Hall].
    assert (Henc : encoding t = b) by (unfold encoding; rewrite Ht; reflexivity).
    cbn [map]. rewrite Henc.
    split; [reflexivity | constructor; [rewrite Henc; exact Ht | exact Hall]].
Qed.

Lemma marshal_all_Forall (ts : list (ClientTransaction Identity)) :
  Forall (fun t => network_Marshal t = inr (encoding t)) ts ->
  marshal_all network_Marshal ts = inr (map encoding ts).
Proof.
  induction 1 as [| t ts Ht _ IH]; simpl; [reflexivity |].
  rewrite Ht, IH. reflexivity.
Qed.

Lemma marshal_all_fails (ts : list (ClientTransaction Identity)) :
  forall t err,
    In t ts -> network_Marshal t = inl err ->
    exists err', marshal_all network_Marshal ts = inl err'.
Proof.
  induction ts as [| t0 ts IH]; intros t err Hin Ht; [destruct Hin |].
  simpl. destruct Hin as [-> | Hin].
  - rewrite Ht. eauto.
  - destruct (network_Marshal t0) as [e | b]; [eauto |].
    destruct (IH t err Hin Ht) as [err' ->]. eauto.
Qed.

Lemma decode_fails_decoded (b : bytes) : decode_fails b <-> decoded b = None.
Proof.
  unfold decode_fails, decoded.
  destruct (network_Unmarshal b) as [e | [ct |]]; split;
    try reflexivity; try discriminate; eauto.
  intros [[err H] | H]; discriminate.
Qed.

Lemma unmarshal_all_inr (bs : list bytes) :
  forall cts,
    unmarshal_all network_Unmarshal bs = inr cts <-> map decoded bs = map Some cts.
Proof.
  induction bs as [| b bs IH]; intros cts; simpl.
  - split.
    + intros H. injection H as <-. reflexivity.
    + destruct cts; [reflexivity | discriminate].
  - unfold decoded at 1.
    destruct (network_Unmarshal b) as [e | [ct |]].
    + split; [discriminate | destruct cts; discriminate].
    + destruct (unmarshal_all network_Unmarshal bs) as [e | cts'] eqn:Hbs.
      * split; [discriminate |].
        destruct cts as [| c cts]; [discriminate |]. cbn [map].
        intros H. injection H as _ Hrest. apply IH in Hrest. discriminate.
      * split.
        -- intros H. injection H as <-. cbn [map]. f_equal.
           apply IH. reflexivity.
        -- destruct cts as [| c cts]; [discriminate |]. cbn [map].
           intros H. injection H as -> Hrest. apply IH in Hrest.
           injection Hrest as ->. reflexivity.
    + split; [discriminate | destruct cts; discriminate].
Qed.

Lemma unmarshal_all_length (bs : list bytes) (cts : list (ClientTransaction Identity)) :
  unmarshal_all network_Unmarshal bs = inr cts -> List.length cts = List.length bs.
Proof.
  intros H. apply unmarshal_all_inr in H.
  apply (f_equal (@List.length _)) in H. rewrite !length_map in H.
  symmetry. exact H.
Qed.

Lemma unmarshal_all_fails (bs : list bytes) :
  forall b,
    In b bs -> decode_fails b ->
    exists err, unmarshal_all network_Unmarshal bs = inl err.
Proof.
  induction bs as [| b0 bs IH]; intros b Hin Hb; [destruct Hin |].
  simpl. destruct Hin as [-> | Hin].
  - destruct Hb as [[err ->] | ->]; eauto.
  - destruct (network_Unmarshal b0) as [e | [ct |]]; eauto.
    destruct (IH b Hin Hb) as [err ->]. eauto.
Qed.

(** A call returns no error exactly when every transaction encodes and
    every sorted encoding decodes to a client transaction; the slice then
    holds the decoded transactions in sorted order. *)
Lemma sortTransactions_success (ts out : list (ClientTransaction Identity)) :
  sortTransactions network_Marshal network_Unmarshal sorter ts = (out, None) <->
  exists bs,
    marshal_all network_Marshal ts = inr bs /\
    unmarshal_all network_Unmarshal
      (sortWithSalt sorter bs (xorTransactions bs)) = inr out.
Proof.
  unfold sortTransactions.
  destruct (marshal_all network_Marshal ts) as [e | bs] eqn:Hm.
  - split; [discriminate | intros [bs [H _]]; discriminate].
  - destruct (unmarshal_all network_Unmarshal _) as [e | cts] eqn:Hu.
    + split; [discriminate |].
      intros [bs' [H Hu']]. injection H as <-. rewrite Hu in Hu'. discriminate.
    + assert (Hlen : List.length cts = List.length ts).
      { rewrite (unmarshal_all_length _ _ Hu). unfold sortWithSalt.
        rewrite <- (Permutation_length (sort_Slice_Permutation sorter _ bs _)).
        destruct (marshal_all_inr _ _ Hm) as [-> _]. apply length_map. }
      rewrite (copy_same_length ts cts Hlen). split.
      * intros H. injection H as <-. exists bs. split; [reflexivity | exact Hu].
      * intros [bs' [H Hu']]. injection H as <-. rewrite Hu in Hu'.
        injection Hu' as <-. reflexivity.
Qed.

(** An error leaves the slice as it was. *)
Lemma sortTransactions_error_unchanged
    (ts out : list (ClientTransaction Identity)) (err : error) :
  sortTransactions network_Marshal network_Unmarshal sorter ts = (out, Some err) ->
  out = ts.
Proof.
  unfold sortTransactions.
  destruct (marshal_all network_Marshal ts) as [e | bs].
  - intros H. injection H as <- _. reflexivity.
  - destruct (unmarshal_all network_Unmarshal _) as [e | cts].
    + intros H. injection H as <- _. reflexivity.
    + discriminate.
Qed.

(** The transactions a successful call leaves are a permutation of those
    it was given, when decoding undoes encoding on them. *)
Lemma sortTransactions_permutes (ts out : list (ClientTransaction Identity)) :
  lossless_on ts ->
  sortTransactions network_Marshal network_Unmarshal sorter ts = (out, None) ->
  Permutation ts out.
Proof.
  intros Hloss Hsort. apply sortTransactions_success in Hsort.
  destruct Hsort as [bs [Hm Hu]].
  destruct (marshal_all_inr _ _ Hm) as [-> Hall].
  apply unmarshal_all_inr in Hu.
  assert (Hdec : map decoded (map encoding ts) = map Some ts).
  { rewrite map_map. apply map_ext_in. intros t Hin.
    rewrite Forall_forall in Hall. unfold decoded.
    rewrite (Hloss t (encoding t) Hin (Hall t Hin)). reflexivity. }
  pose proof (sort_Slice_Permutation sorter _ (map encoding ts)
                (less (xorTransactions (map encoding ts)))) as Hperm.
  apply (Permutation_map decoded) in Hperm.
  unfold sortWithSalt in Hu. rewrite Hu, Hdec in Hperm.
  apply Permutation_sym, Permutation_map_inv in Hperm.
  destruct Hperm as [l3 [Heq Hperm]].
  apply map_Some_inj in Heq. subst l3.
  exact Hperm.
Qed.

(** Two slices holding the same transactions in different orders are left
    in the same state by successful calls, when distinct encodings have
    distinct sort keys. *)
Lemma sortTransactions_order_irrelevant
    (ts1 ts2 out : list (ClientTransaction Identity)) :
  Permutation ts1 ts2 ->
  distinct_keys (xorTransactions (map encoding ts1)) (map encoding ts1) ->
  sortTransactions network_Marshal network_Unmarshal sorter ts1 = (out, None) ->
  sortTransactions network_Marshal network_Unmarshal sorter ts2 = (out, None).
Proof.
  intros Hperm Hkeys Hsort. apply sortTransactions_success in Hsort.
  destruct Hsort as [bs [Hm Hu]].
  destruct (marshal_all_inr _ _ Hm) as [-> Hall].
  apply sortTransactions_success. exists (map encoding ts2). split.
  - apply marshal_all_Forall. eapply Permutation_Forall; eassumption.
  - assert (Hbs : Permutation (map encoding ts1) (map encoding ts2))
      by (apply Permutation_map; exact Hperm).
    rewrite <- (xorTransactions_Permutation _ _ Hbs).
    set (salt := xorTransactions (map encoding ts1)) in *.
    replace (sortWithSalt sorter (map encoding ts2) salt)
      with (sortWithSalt sorter (map encoding ts1) salt); [exact Hu |].
    unfold sortWithSalt.
    apply StronglySorted_Permutation_eq
      with (R := fun a b => less salt b a = false).
    + intros a b Ha Hb Hab Hba.
      apply Hkeys.
      * eapply Permutation_in; [apply Permutation_sym, sort_Slice_Permutation | exact Ha].
      * eapply Permutation_in; [apply Permutation_sym, sort_Slice_Permutation | exact Hb].
      * unfold less in Hab, Hba. apply Z.eqb_neq in Hab, Hba.
        apply bytes_Compare_antisym; assumption.
    + apply sort_Slice_Sorted, less_strict_weak_order.
    + apply sort_Slice_Sorted, less_strict_weak_order.
    + eapply Permutation_trans;
        [apply Permutation_sym, sort_Slice_Permutation |].
      eapply Permutation_trans; [exact Hbs | apply sort_Slice_Permutation].
Qed.

(** C4.  When the encoding of a transaction fails, or the decoding of one
    of the sorted encodings fails, [sortTransactions] returns an error and
    the slice is what it was before the call. *)
Theorem sortTransactions_all_or_nothing :
  forall ts : list (ClientTransaction Identity),
    (exists t err, In t ts /\ network_Marshal t = inl err) \/
    (exists bs b,
        marshal_all network_Marshal ts = inr bs /\
        In b (sortWithSalt sorter bs (xorTransactions bs)) /\
        decode_fails b) ->
    exists err,
      sortTransactions network_Marshal network_Unmarshal sorter ts = (ts, Some err).
Proof.
  intros ts [[t [err [Hin Ht]]] | [bs [b [Hm [Hin Hb]]]]]; unfold sortTransactions.
  - destruct (marshal_all_fails ts t err Hin Ht) as [err' ->]. eauto.
  - rewrite Hm.
    destruct (unmarshal_all_fails _ b Hin Hb) as [err ->]. eauto.
Qed.

(** C5.  When [sortTransactions] succeeds on transactions that decode back
    from their encodings, the slice it leaves is a permutation of the
    slice it was given: nothing is removed, nothing is duplicated. *)
Theorem sortTransactions_is_permutation :
  forall ts out : list (ClientTransaction Identity),
    lossless_on ts ->
    sortTransactions network_Marshal network_Unmarshal sorter ts = (out, None) ->
    Permutation ts out /\ List.length out = List.length ts.
Proof.
  intros ts out Hloss Hsort.
  pose proof (sortTransactions_permutes ts out Hloss Hsort) as Hperm.
  split; [exact Hperm | symmetry; apply Permutation_length; exact Hperm].
Qed.

(** C6.  Let [ts1] and [ts2] hold the same transactions in different
    orders, with distinct sort keys for distinct encodings, and let the
    call succeed on [ts1].  The salt, whose bytes are the XOR of the bytes
    of the SHA-256 digests of the encodings, is the same for both; the
    encodings are put in ascending order of the SHA-256 digest of the salt
    followed by the encoding, compared as byte strings; the call on [ts2]
    succeeds with the same result; and when decoding undoes encoding, a
    further call on the result leaves it as it is. *)
Theorem sortTransactions_input_order_irrelevant :
  forall ts1 ts2 out : list (ClientTransaction Identity),
    Permutation ts1 ts2 ->
    distinct_keys (xorTransactions (map encoding ts1)) (map encoding ts1) ->
    sortTransactions network_Marshal network_Unmarshal sorter ts1 = (out, None) ->
    let salt := xorTransactions (map encoding ts1) in
    marshal_all network_Marshal ts1 = inr (map encoding ts1) /\
    marshal_all network_Marshal ts2 = inr (map encoding ts2) /\
    xorTransactions (map encoding ts2) = salt /\
    (forall i, (i < SHA256.Size)%nat ->
       nth i salt 0
       = fold_left Z.lxor
           (map (fun t => nth i (SHA256.Sum256 (encoding t)) 0) ts1) 0) /\
    (exists sorted,
        Permutation (map encoding ts1) sorted /\
        StronglySorted
          (fun a b => bytes_Compare (SHA256.Sum256 (salt ++ a))
                                    (SHA256.Sum256 (salt ++ b)) <> 1)
          sorted /\
        unmarshal_all network_Unmarshal sorted = inr out) /\
    sortTransactions network_Marshal network_Unmarshal sorter ts2 = (out, None) /\
    (lossless_on ts1 ->
     sortTransactions network_Marshal network_Unmarshal sorter out = (out, None)).
Proof.
  intros ts1 ts2 out Hperm Hkeys Hsort salt.
  pose proof Hsort as Hsucc. apply sortTransactions_success in Hsucc.
  destruct Hsucc as [bs [Hm Hu]].
  destruct (marshal_all_inr _ _ Hm) as [-> Hall].
  fold salt in Hu.
  split; [exact Hm |].
  split; [apply marshal_all_Forall; eapply Permutation_Forall; eassumption |].
  split; [symmetry; apply xorTransactions_Permutation, Permutation_map, Hperm |].
  split.
  { intros i Hi. unfold salt. rewrite xorTransactions_byte by exact Hi.
    rewrite map_map. reflexivity. }
  split.
  { exists (sortWithSalt sorter (map encoding ts1) salt).
    split; [apply sort_Slice_Permutation |]. split; [| exact Hu].
    pose proof (sort_Slice_Sorted sorter bytes (map encoding ts1) (less salt)
                  (less_strict_weak_order salt)) as Hsorted.
    unfold sortWithSalt.
    induction Hsorted as [| a l _ IH Ha]; constructor; [exact IH |].
    eapply Forall_impl; [| exact Ha].
    intros b Hb. unfold less, salted in Hb. apply Z.eqb_neq in Hb.
    rewrite bytes_Compare_flip. lia. }
  split.
  { eapply sortTransactions_order_irrelevant; eassumption. }
  intros Hloss.
  eapply sortTransactions_order_irrelevant; [| exact Hkeys | exact Hsort].
  apply sortTransactions_permutes; assumption.
Qed.

End OrderingFacts.

(** ** Insertion sort meets the contract of [sort.Slice] *)

Lemma insert_sorted_Permutation {A : Type} (lt : A -> A -> bool) (x : A) (l : list A) :
  Permutation (x :: l) (insert_sorted lt x l).
Proof.
  induction l as [| y l IH]; simpl.
  - apply Permutation_refl.
  - destruct (lt x y).
    + apply Permutation_refl.
    + eapply Permutation_trans; [apply perm_swap |].
      apply perm_skip. exact IH.
Qed.

Lemma insertionSort_Permutation (A : Type) (x : list A) (lt : A -> A -> bool) :
  Permutation x (insertionSort A x lt).
Proof.
  unfold insertionSort.
  assert (H : forall acc,
             Permutation (x ++ acc)
                         (fold_left (fun sorted e => insert_sorted lt e sorted) x acc)).
  { induction x as [| e x IH]; intros acc; simpl.
    - apply Permutation_refl.
    - eapply Permutation_trans; [| apply IH].
      eapply Permutation_trans; [apply Permutation_middle |].
      apply Permutation_app_head. apply insert_sorted_Permutation. }
  specialize (H []). rewrite app_nil_r in H. exact H.
Qed.

Lemma insert_sorted_Sorted {A : Type} (lt : A -> A -> bool) (x : A) (l : list A) :
  strict_weak_order lt ->
  StronglySorted (fun a b => lt b a = false) l ->
  StronglySorted (fun a b => lt b a = false) (insert_sorted lt x l).
Proof.
  intros [Hirr [Htrans Hneg]] Hs.
  induction Hs as [| y l Hs IH Hy]; simpl.
  - constructor; constructor.
  - destruct (lt x y) eqn:Hxy.
    + constructor; [constructor; assumption |].
      assert (Hyx : lt y x = false).
      { destruct (lt y x) eqn:Hyx; [| reflexivity].
        rewrite <- (Hirr x). symmetry. eapply Htrans; eassumption. }
      constructor; [exact Hyx |].
      eapply Forall_impl; [| exact Hy].
      intros z Hz. cbv beta in Hz |- *.
      destruct (lt z x) eqn:Hzx; [| reflexivity].
      rewrite <- Hz. symmetry. eapply Htrans; eassumption.
    + constructor; [exact IH |].
      eapply Permutation_Forall; [apply insert_sorted_Permutation |].
      constructor; assumption.
Qed.

Lemma insertionSort_Sorted (A : Type) (x : list A) (lt : A -> A -> bool) :
  strict_weak_order lt ->
  StronglySorted (fun a b => lt b a = false) (insertionSort A x lt).
Proof.
  intros Hlt. unfold insertionSort.
  assert (H : forall acc,
             StronglySorted (fun a b => lt b a = false) acc ->
             StronglySorted (fun a b => lt b a = false)
                            (fold_left (fun sorted e => insert_sorted lt e sorted) x acc)).
  { induction x as [| e x IH]; intros acc Hacc; simpl; [exact Hacc |].
    apply IH. apply insert_sorted_Sorted; assumption. }
  apply H. constructor.
Qed.

Definition insertion_sorter : SliceSorter :=
  {| sort_Slice := insertionSort;
     sort_Slice_Permutation := insertionSort_Permutation;
     sort_Slice_Sorted := insertionSort_Sorted |}.

(** ** The sample inputs *)

(** C1.  An Invoke of the darc command ["evolve"] is labelled
    ["invoke:evolve"], which is not the string the evolution branch tests
    for: with the ["darc"] argument absent the request is built without an
    error, and with it present the message is still the digest of the
    instruction, whatever the parser of darcs does. *)
Theorem ToDarcRequest_evolve_not_special :
  forall (Darc : Type) (NewFromProtobuf : bytes -> error + Darc)
         (GetID : Darc -> bytes),
    Action Examples.evolve_without_darc = "invoke:evolve"%string /\
    ToDarcRequest ""%string NewFromProtobuf GetID Examples.evolve_without_darc
    = Ok (InitRequest [1; 2; 3; 4] "invoke:evolve"
            (Instruction_Hash Examples.evolve_without_darc) [] []) /\
    ToDarcRequest ""%string NewFromProtobuf GetID Examples.evolve_with_darc
    = Ok (InitRequest [1; 2; 3; 4] "invoke:evolve"
            (Instruction_Hash Examples.evolve_with_darc) [] []).
Proof.
  intros Darc NewFromProtobuf GetID.
  split; [reflexivity |].
  split; unfold ToDarcRequest; rewrite collect_all; reflexivity.
Qed.

(** C2, refuted as stated: with Spawn and Invoke both set the type is
    invalid but the label is that of the Spawn. *)
Lemma Action_of_two_payloads_is_not_invalid :
  ~ (forall instr : Instruction string,
        payloads instr <> 1%nat ->
        Action instr = "invalid"%string /\ GetType instr = InvalidInstrType).
Proof.
  intros H.
  destruct (H Examples.spawn_and_invoke) as [Hact _].
  - vm_compute. discriminate.
  - vm_compute in Hact. discriminate.
Qed.

(** C3.  A record that [Values] decodes into fewer than two fields, or
    into fields that are not byte slices, is not reported as an error:
    the indexing and the type assertions panic. *)
Theorem GetContractState_panics_on_malformed_record :
  GetContractState Examples.signed_delete
    (Examples.store_of [BytesValue [1; 2; 3]]) = Panic /\
  GetContractState Examples.signed_delete
    (Examples.store_of [BytesValue [1; 2; 3]; OtherValue 7]) = Panic /\
  GetContractState Examples.signed_delete
    (Examples.store_of [OtherValue 7; BytesValue [99]]) = Panic.
Proof. repeat split; reflexivity. Qed.

(** C7, refuted as stated: the digest of an instruction with no payload
    covers the five leading fields and no tag byte; it differs from the
    digest of those fields followed by any one byte. *)
Lemma Hash_without_payload_has_no_tag :
  Instruction_Hash Examples.no_payload
  = SHA256.Sum256 (Hash_header Examples.no_payload) /\
  forall tag : byte,
    0 <= tag < 256 ->
    Instruction_Hash Examples.no_payload
    <> SHA256.Sum256 (Hash_header Examples.no_payload ++ [tag]).
Proof.
  split.
  - rewrite Instruction_Hash_layout. unfold Hash_layout. cbn [Examples.no_payload
      Examples.instruction instr_Spawn instr_Invoke instr_Delete].
    rewrite app_nil_r. reflexivity.
  - intros tag Hrange Heq.
    assert (Hin : In tag (map Z.of_nat (seq 0 256))).
    { rewrite <- (Z2Nat.id tag) by lia. apply in_map, in_seq. lia. }
    assert (Hall :
              forallb
                (fun t =>
                   if list_eq_dec Z.eq_dec
                        (Instruction_Hash Examples.no_payload)
                        (SHA256.Sum256 (Hash_header Examples.no_payload ++ [t]))
                   then false else true)
                (map Z.of_nat (seq 0 256)) = true)
      by (vm_compute; reflexivity).
    rewrite forallb_forall in Hall. specialize (Hall tag Hin).
    destruct (list_eq_dec Z.eq_dec _ _) as [_ | Hne];
      [discriminate | exact (Hne Heq)].
Qed.

(** A Delete signed by two signers: the request carries both, in order. *)
Lemma ToDarcRequest_regular_action_witness :
  Action Examples.signed_delete <> "_evolve"%string /\
  ToDarcRequest ""%string
    (fun _ : bytes => @inl error unit "not a darc"%string) (fun _ : unit => [])
    Examples.signed_delete
  = Ok {| req_BaseID := [1; 2; 3; 4];
          req_Action := "Delete";
          req_Msg := Instruction_Hash Examples.signed_delete;
          req_Identities := ["alice"%string; "bob"%string];
          req_Signatures := [[7; 7]; [8]] |}.
Proof.
  assert (H : Action Examples.signed_delete <> "_evolve"%string)
    by (vm_compute; discriminate).
  split; [exact H |].
  exact (ToDarcRequest_regular_action ""%string unit
           (fun _ : bytes => @inl error unit "not a darc"%string)
           (fun _ : unit => []) Examples.signed_delete H).
Defined.

(** Three state changes, the second with an action the encoder rejects:
    the digest is that of the first and third, and one line is logged. *)
Lemma StateChanges_Hash_omits_failures_witness :
  fst (StateChanges_Hash Examples.action_Encode
         [Examples.created; Examples.unknown_action; Examples.removed])
  = SHA256.Sum256 (fst (Examples.action_Encode Examples.created)
                     ++ fst (Examples.action_Encode Examples.removed)) /\
  snd (StateChanges_Hash Examples.action_Encode
         [Examples.created; Examples.unknown_action; Examples.removed])
  = [marshal_failure].
Proof.
  assert (Hnil : forall sc e,
             snd (Examples.action_Encode sc) = Some e ->
             fst (Examples.action_Encode sc) = []).
  { intros sc e. unfold Examples.action_Encode.
    destruct ((1 <=? sc_StateAction sc) && (sc_StateAction sc <=? 3));
      simpl; [discriminate | reflexivity]. }
  destruct (StateChanges_Hash_omits_failures Examples.action_Encode Hnil
              [Examples.created; Examples.unknown_action; Examples.removed])
    as [_ [Hdigest Hlog]].
  split.
  - rewrite Hdigest. apply f_equal. vm_compute. reflexivity.
  - rewrite Hlog. vm_compute. reflexivity.
Defined.

(** A transaction whose index does not fit the codec's byte: the call
    fails and the three transactions stay in place. *)
Lemma sortTransactions_all_or_nothing_witness :
  exists err,
    sortTransactions Examples.index_Marshal Examples.index_Unmarshal insertion_sorter
      [Examples.A; Examples.oversized; Examples.B]
    = ([Examples.A; Examples.oversized; Examples.B], Some err).
Proof.
  apply (sortTransactions_all_or_nothing
           Examples.index_Marshal Examples.index_Unmarshal insertion_sorter
           [Examples.A; Examples.oversized; Examples.B]).
  left. exists Examples.oversized, "index does not fit a byte"%string.
  split; [right; left; reflexivity | vm_compute; reflexivity].
Defined.

(** [A; B; C] is left as [A; C; B]. *)
Lemma sortTransactions_is_permutation_witness :
  sortTransactions Examples.index_Marshal Examples.index_Unmarshal insertion_sorter
    [Examples.A; Examples.B; Examples.C]
  = ([Examples.A; Examples.C; Examples.B], None) /\
  Permutation [Examples.A; Examples.B; Examples.C]
              [Examples.A; Examples.C; Examples.B].
Proof.
  assert (Hsort :
            sortTransactions Examples.index_Marshal Examples.index_Unmarshal
              insertion_sorter [Examples.A; Examples.B; Examples.C]
            = ([Examples.A; Examples.C; Examples.B], None))
    by (vm_compute; reflexivity).
  assert (Hloss : lossless_on Examples.index_Marshal Examples.index_Unmarshal
                              [Examples.A; Examples.B; Examples.C]).
  { intros t b Hin Hm.
    destruct Hin as [<- | [<- | [<- | []]]];
      vm_compute in Hm; injection Hm as <-; reflexivity. }
  split; [exact Hsort |].
  exact (proj1 (sortTransactions_is_permutation
                  Examples.index_Marshal Examples.index_Unmarshal insertion_sorter
                  [Examples.A; Examples.B; Examples.C]
                  [Examples.A; Examples.C; Examples.B]
                  Hloss Hsort)).
Defined.

(** [A; B; C] and [C; B; A] are both left as [A; C; B], and so is
    [A; C; B] itself. *)
Lemma sortTransactions_input_order_irrelevant_witness :
  sortTransactions Examples.index_Marshal Examples.index_Unmarshal insertion_sorter
    [Examples.A; Examples.B; Examples.C]
  = ([Examples.A; Examples.C; Examples.B], None) /\
  sortTransactions Examples.index_Marshal Examples.index_Unmarshal insertion_sorter
    [Examples.C; Examples.B; Examples.A]
  = ([Examples.A; Examples.C; Examples.B], None) /\
  sortTransactions Examples.index_Marshal Examples.index_Unmarshal insertion_sorter
    [Examples.A; Examples.C; Examples.B]
  = ([Examples.A; Examples.C; Examples.B], None).
Proof.
  assert (Hsort :
            sortTransactions Examples.index_Marshal Examples.index_Unmarshal
              insertion_sorter [Examples.A; Examples.B; Examples.C]
            = ([Examples.A; Examples.C; Examples.B], None))
    by (vm_compute; reflexivity).
  assert (Hloss : lossless_on Examples.index_Marshal Examples.index_Unmarshal
                              [Examples.A; Examples.B; Examples.C]).
  { intros t b Hin Hm.
    destruct Hin as [<- | [<- | [<- | []]]];
      vm_compute in Hm; injection Hm as <-; reflexivity. }
  assert (Hkeys :
            distinct_keys
              (xorTransactions
                 (map (encoding Examples.index_Marshal)
                      [Examples.A; Examples.B; Examples.C]))
              (map (encoding Examples.index_Marshal)
                   [Examples.A; Examples.B; Examples.C])).
  { intros b1 b2 H1 H2 Hk.
    vm_compute in H1. vm_compute in H2.
    destruct H1 as [<- | [<- | [<- | []]]];
      destruct H2 as [<- | [<- | [<- | []]]];
      try reflexivity; vm_compute in Hk; discriminate. }
  pose proof (sortTransactions_input_order_irrelevant
                Examples.index_Marshal Examples.index_Unmarshal insertion_sorter
                [Examples.A; Examples.B; Examples.C]
                [Examples.C; Examples.B; Examples.A]
                [Examples.A; Examples.C; Examples.B]
                (Permutation_rev [Examples.A; Examples.B; Examples.C])
                Hkeys Hsort) as H.
  cbv zeta in H.
  destruct H as [_ [_ [_ [_ [_ [Hrev Hagain]]]]]].
  split; [exact Hsort |].
  split; [exact Hrev | exact (Hagain Hloss)].
Defined.

(** * Further properties *)

(** ** Strings, object identifiers, argument lists and actions *)

Lemma app_inj_length {A : Type} (a : list A) :
  forall a' b b',
    List.length a = List.length a' -> a ++ b = a' ++ b' -> a = a' /\ b = b'.
Proof.
  induction a as [| x a IH]; intros [| x' a'] b b' Hlen Heq;
    simpl in Hlen; try discriminate.
  - split; [reflexivity | exact Heq].
  - simpl in Heq. injection Heq as -> Heq. injection Hlen as Hlen.
    destruct (IH a' b b' Hlen Heq) as [-> ->]. split; reflexivity.
Qed.

Lemma string_of_bytes_of_string (s : string) :
  string_of_bytes (bytes_of_string s) = s.
Proof.
  unfold string_of_bytes, bytes_of_string. rewrite map_map.
  rewrite <- (string_of_list_ascii_of_string s) at 2. f_equal.
  rewrite <- (map_id (list_ascii_of_string s)) at 2.
  apply map_ext. intros c. rewrite N2Z.id. apply ascii_N_embedding.
Qed.

Lemma bytes_of_string_inj (s1 s2 : string) :
  bytes_of_string s1 = bytes_of_string s2 -> s1 = s2.
Proof.
  intros H. rewrite <- (string_of_bytes_of_string s1), H.
  apply string_of_bytes_of_string.
Qed.

Lemma bytes_of_string_append (a b : string) :
  bytes_of_string (String.append a b) = bytes_of_string a ++ bytes_of_string b.
Proof.
  unfold bytes_of_string. rewrite <- map_app. f_equal.
  induction a as [| c a IH]; simpl; [reflexivity | rewrite IH; reflexivity].
Qed.

Lemma Slice_injective_on_keys (o1 o2 : ObjectID) :
  Nonce_wf (oid_InstanceID o1) -> Nonce_wf (oid_InstanceID o2) ->
  Slice o1 = Slice o2 -> o1 = o2.
Proof.
  destruct o1 as [d1 i1], o2 as [d2 i2].
  unfold Nonce_wf, Slice. cbn [oid_DarcID oid_InstanceID app].
  intros H1 H2 Heq.
  assert (Hlen : List.length d1 = List.length d2).
  { apply (f_equal (@List.length _)) in Heq. rewrite !length_app in Heq. lia. }
  destruct (app_inj_length d1 d2 i1 i2 Hlen Heq) as [-> ->]. reflexivity.
Qed.

(** X2.  [Slice] is injective on object identifiers whose instance ID has
    its 32 bytes: the key of an object in the store names one object, and
    has as many bytes as the darc ID and 32 more. *)
Theorem Slice_injective :
  forall o1 o2 : ObjectID,
    Nonce_wf (oid_InstanceID o1) -> Nonce_wf (oid_InstanceID o2) ->
    Slice o1 = Slice o2 ->
    o1 = o2 /\
    List.length (Slice o1) = (List.length (oid_DarcID o1) + 32)%nat.
Proof.
  intros o1 o2 H1 H2 Heq. split.
  - apply Slice_injective_on_keys; assumption.
  - unfold Slice. cbn [app]. rewrite length_app, H1. reflexivity.
Qed.

(** The genesis identifier written in two ways. *)
Lemma Slice_injective_witness :
  Examples.genesis
  = {| oid_DarcID := [1; 2] ++ [3; 4];
       oid_InstanceID := repeat 0 16 ++ repeat 0 16 |} /\
  List.length (Slice Examples.genesis) = 36%nat.
Proof.
  apply (Slice_injective Examples.genesis
           {| oid_DarcID := [1; 2] ++ [3; 4];
              oid_InstanceID := repeat 0 16 ++ repeat 0 16 |});
    reflexivity.
Defined.

(** X3.  Two state changes built by [NewStateChange] for objects with
    32-byte instance IDs are equal only when the action, the object, the
    contract ID and the value are. *)
Theorem NewStateChange_injective :
  forall (sa1 sa2 : StateAction) (o1 o2 : ObjectID) (c1 c2 : string)
         (v1 v2 : bytes),
    Nonce_wf (oid_InstanceID o1) -> Nonce_wf (oid_InstanceID o2) ->
    NewStateChange sa1 o1 c1 v1 = NewStateChange sa2 o2 c2 v2 ->
    sa1 = sa2 /\ o1 = o2 /\ c1 = c2 /\ v1 = v2.
Proof.
  intros sa1 sa2 o1 o2 c1 c2 v1 v2 H1 H2 Heq.
  unfold NewStateChange in Heq. injection Heq as Hsa Ho Hc Hv.
  repeat split; try assumption.
  - apply Slice_injective_on_keys; assumption.
  - apply bytes_of_string_inj. exact Hc.
Qed.

(** Two state changes on the genesis object with the same fields. *)
Lemma NewStateChange_injective_witness :
  Create = 1 /\ Examples.genesis = Examples.genesis /\
  "coin"%string = String.append "co" "in" /\ [100] = [100].
Proof.
  apply (NewStateChange_injective Create 1 Examples.genesis Examples.genesis
           "coin" (String.append "co" "in") [100] [100]);
    reflexivity.
Defined.

(** X4.  [Search] gives the value of the first argument of the name it is
    asked for: arguments of other names before it are passed over, and
    whatever comes after it, arguments of the same name included, is not
    looked at. *)
Theorem Search_first_match :
  forall (before after : Arguments) (name : string) (value : bytes),
    (forall a, In a before -> arg_Name a <> name) ->
    Search (before ++ {| arg_Name := name; arg_Value := value |} :: after) name
    = value.
Proof.
  intros before after name value Hbefore.
  induction before as [| a before IH]; simpl.
  - rewrite String.eqb_refl. reflexivity.
  - destruct (String.eqb_spec (arg_Name a) name) as [Heq | _].
    + destruct (Hbefore a (or_introl eq_refl) Heq).
    + apply IH. intros b Hb. apply Hbefore. right. exact Hb.
Qed.

(** The first of two ["darc"] arguments is the one found. *)
Lemma Search_first_match_witness :
  Search [ {| arg_Name := "owner"; arg_Value := [1] |};
           {| arg_Name := "darc"; arg_Value := [2; 3] |};
           {| arg_Name := "darc"; arg_Value := [4] |} ] "darc"
  = [2; 3].
Proof.
  apply (Search_first_match
           [ {| arg_Name := "owner"; arg_Value := [1] |} ]
           [ {| arg_Name := "darc"; arg_Value := [4] |} ] "darc" [2; 3]).
  intros a [<- | []]. vm_compute. discriminate.
Defined.



(** X6.  [StateAction.String] names the three actions apart and gives
    every other number the one name ["Invalid stateChange"]. *)
Theorem StateAction_String_distinguishes :
  forall a b : StateAction,
    StateAction_String a = StateAction_String b <->
    (a = b \/ (~ 1 <= a <= 3 /\ ~ 1 <= b <= 3)).
Proof.
  intros a b. unfold StateAction_String, Create, Update, Remove.
  destruct (Z.eqb_spec a 1); destruct (Z.eqb_spec a 2); destruct (Z.eqb_spec a 3);
    destruct (Z.eqb_spec b 1); destruct (Z.eqb_spec b 2); destruct (Z.eqb_spec b 3);
    split; intros H; try discriminate; try lia; try reflexivity.
Qed.

(** ** Digests of instructions and transactions *)

Section DigestFacts.

Context {Identity : Type}.

Lemma Instruction_Hash_with_Signatures (instr : Instruction Identity)
    (sigs : list (darc_Signature Identity)) :
  Instruction_Hash (with_Signatures instr sigs) = Instruction_Hash instr.
Proof. rewrite !Instruction_Hash_layout. reflexivity. Qed.

(** X7.  The digest of an instruction has 32 bytes and does not cover the
    signature list: replacing the signatures leaves it unchanged. *)
Theorem Instruction_Hash_ignores_signatures :
  forall (instr : Instruction Identity) (sigs : list (darc_Signature Identity)),
    Instruction_Hash (with_Signatures instr sigs) = Instruction_Hash instr /\
    List.length (Instruction_Hash instr) = 32%nat.
Proof.
  intros instr sigs. split.
  - apply Instruction_Hash_with_Signatures.
  - rewrite Instruction_Hash_layout. apply Sum256_length.
Qed.

(** X8.  The digest writes names and values one after the other with
    nothing between them.  Moving the end of a Spawn's contract ID to the
    front of the name of its first argument, or the end of an argument's
    name to the front of its value, gives an instruction with the same
    digest. *)
Theorem Instruction_Hash_does_not_delimit :
  forall (oid : ObjectID) (nonce : Nonce) (index len : Z)
         (inv : option Invoke) (del : option Delete)
         (sigs : list (darc_Signature Identity))
         (kind moved name : string) (value : bytes) (args : Arguments),
    Instruction_Hash
      {| instr_ObjectID := oid; instr_Nonce := nonce;
         instr_Index := index; instr_Length := len;
         instr_Spawn :=
           Some {| spawn_ContractID := String.append kind moved;
                   spawn_Args := {| arg_Name := name; arg_Value := value |} :: args |};
         instr_Invoke := inv; instr_Delete := del; instr_Signatures := sigs |}
    = Instruction_Hash
      {| instr_ObjectID := oid; instr_Nonce := nonce;
         instr_Index := index; instr_Length := len;
         instr_Spawn :=
           Some {| spawn_ContractID := kind;
                   spawn_Args := {| arg_Name := String.append moved name;
                                    arg_Value := value |} :: args |};
         instr_Invoke := inv; instr_Delete := del; instr_Signatures := sigs |}
    /\
    Instruction_Hash
      {| instr_ObjectID := oid; instr_Nonce := nonce;
         instr_Index := index; instr_Length := len;
         instr_Spawn :=
           Some {| spawn_ContractID := kind;
                   spawn_Args := {| arg_Name := String.append name moved;
                                    arg_Value := value |} :: args |};
         instr_Invoke := inv; instr_Delete := del; instr_Signatures := sigs |}
    = Instruction_Hash
      {| instr_ObjectID := oid; instr_Nonce := nonce;
         instr_Index := index; instr_Length := len;
         instr_Spawn :=
           Some {| spawn_ContractID := kind;
                   spawn_Args := {| arg_Name := name;
                                    arg_Value := bytes_of_string moved ++ value |} :: args |};
         instr_Invoke := inv; instr_Delete := del; instr_Signatures := sigs |}.
Proof.
  intros. rewrite !Instruction_Hash_layout. unfold Hash_layout, Hash_header.
  cbn [instr_ObjectID instr_Nonce instr_Index instr_Length instr_Spawn
       spawn_ContractID spawn_Args args_bytes flat_map arg_Name arg_Value].
  rewrite !bytes_of_string_append.
  split; apply f_equal; rewrite <- ?app_assoc; reflexivity.
Qed.

Lemma write_instruction_hashes (instrs : list (Instruction Identity)) (h : Hasher.t) :
  fold_left (fun h instr => Hasher.Write h (Instruction_Hash instr)) instrs h
  = h ++ List.concat (map Instruction_Hash instrs).
Proof.
  revert h. induction instrs as [| i instrs IH]; intros h; simpl.
  - symmetry. apply app_nil_r.
  - rewrite IH. unfold Hasher.Write. rewrite <- app_assoc. reflexivity.
Qed.

Lemma Instructions_Hash_concat (instrs : list (Instruction Identity)) :
  Instructions_Hash instrs
  = SHA256.Sum256 (List.concat (map Instruction_Hash instrs)).
Proof.
  unfold Instructions_Hash. rewrite write_instruction_hashes. reflexivity.
Qed.

Lemma concat_length_32 {A : Type} (f : A -> bytes) (l : list A) :
  (forall x, List.length (f x) = 32%nat) ->
  List.length (List.concat (map f l)) = (32 * List.length l)%nat.
Proof.
  intros Hf. induction l as [| x l IH]; [reflexivity |].
  cbn [map List.concat List.length]. rewrite length_app, Hf, IH. lia.
Qed.

(** X9.  [Instructions.Hash] is the SHA-256 digest of the 32-byte digests
    of the instructions, one after the other in list order, [32 * n]
    bytes for [n] instructions; it has 32 bytes, and replacing the
    signatures of the instructions leaves it unchanged. *)
Theorem Instructions_Hash_of_digests :
  forall (instrs : list (Instruction Identity))
         (resign : Instruction Identity -> list (darc_Signature Identity)),
    Instructions_Hash instrs
      = SHA256.Sum256 (List.concat (map Instruction_Hash instrs)) /\
    List.length (List.concat (map Instruction_Hash instrs))
      = (32 * List.length instrs)%nat /\
    List.length (Instructions_Hash instrs) = 32%nat /\
    Instructions_Hash (map (fun i => with_Signatures i (resign i)) instrs)
      = Instructions_Hash instrs.
Proof.
  intros instrs resign. repeat split.
  - apply Instructions_Hash_concat.
  - apply concat_length_32. intros i.
    rewrite Instruction_Hash_layout. apply Sum256_length.
  - rewrite Instructions_Hash_concat. apply Sum256_length.
  - rewrite !Instructions_Hash_concat, map_map. apply f_equal. apply f_equal.
    apply map_ext. intros i. apply Instruction_Hash_with_Signatures.
Qed.

Lemma write_transaction_hashes (cts : list (ClientTransaction Identity)) (h : Hasher.t) :
  fold_left (fun h ct => Hasher.Write h (Instructions_Hash (Instructions ct))) cts h
  = h ++ List.concat (map (fun ct => Instructions_Hash (Instructions ct)) cts).
Proof.
  revert h. induction cts as [| ct cts IH]; intros h; simpl.
  - symmetry. apply app_nil_r.
  - rewrite IH. unfold Hasher.Write. rewrite <- app_assoc. reflexivity.
Qed.

(** X10.  [ClientTransactions.Hash] is the SHA-256 digest of the digests
    that [Instructions.Hash] gives for the transactions, one after the
    other in list order, [32 * n] bytes for [n] transactions; a
    transaction without instructions contributes the digest of the empty
    input. *)
Theorem ClientTransactions_Hash_of_digests :
  forall cts : list (ClientTransaction Identity),
    ClientTransactions_Hash cts
      = SHA256.Sum256
          (List.concat (map (fun ct => Instructions_Hash (Instructions ct)) cts)) /\
    List.length
      (List.concat (map (fun ct => Instructions_Hash (Instructions ct)) cts))
      = (32 * List.length cts)%nat /\
    ClientTransactions_Hash ({| Instructions := [] |} :: cts)
      = SHA256.Sum256
          (SHA256.Sum256 []
             ++ List.concat (map (fun ct => Instructions_Hash (Instructions ct)) cts)).
Proof.
  intros cts.
  assert (H : forall l : list (ClientTransaction Identity),
             ClientTransactions_Hash l
             = SHA256.Sum256
                 (List.concat (map (fun ct => Instructions_Hash (Instructions ct)) l))).
  { intros l. unfold ClientTransactions_Hash.
    rewrite write_transaction_hashes. reflexivity. }
  repeat split.
  - apply H.
  - apply concat_length_32. intros ct.
    rewrite Instructions_Hash_concat. apply Sum256_length.
  - rewrite H. reflexivity.
Qed.

(** The payload a label speaks of: the kind of the first set payload with
    the contract ID or the command. *)
Definition labelled_payload (instr : Instruction Identity) : instrType * string :=
  match instr_Spawn instr, instr_Invoke instr, instr_Delete instr with
  | Some sp, _, _ => (SpawnType, spawn_ContractID sp)
  | None, Some inv, _ => (InvokeType, invoke_Command inv)
  | None, None, Some _ => (DeleteType, ""%string)
  | None, None, None => (InvalidInstrType, ""%string)
  end.

(** X11.  The label of [Action] tells the payload: two instructions with
    the same label have a first set payload of the same kind, with the
    same contract ID for a Spawn and the same command for an Invoke. *)
Theorem Action_label_is_unambiguous :
  forall i1 i2 : Instruction Identity,
    Action i1 = Action i2 -> labelled_payload i1 = labelled_payload i2.
Proof.
  intros i1 i2. unfold Action, labelled_payload.
  destruct (instr_Spawn i1) as [sp1 |];
    [| destruct (instr_Invoke i1) as [inv1 |];
       [| destruct (instr_Delete i1) as [d1 |]]];
    (destruct (instr_Spawn i2) as [sp2 |];
     [| destruct (instr_Invoke i2) as [inv2 |];
        [| destruct (instr_Delete i2) as [d2 |]]]);
    simpl; intros H; try discriminate; try reflexivity;
    injection H as H; rewrite H; reflexivity.
Qed.

End DigestFacts.

(** A Spawn of ["coin"] and another with the same contract ID. *)
Lemma Action_label_is_unambiguous_witness :
  labelled_payload Examples.spawn_and_invoke
  = labelled_payload
      (Examples.instruction 7
         (Some {| spawn_ContractID := "coin";
                  spawn_Args := [ {| arg_Name := "amount"; arg_Value := [5] |} ] |})
         None None []).
Proof.
  apply (Action_label_is_unambiguous Examples.spawn_and_invoke). reflexivity.
Defined.

(** ** Looking up the contract and the state *)

Section ContractStateFacts.

Context {Identity : Type}.

(** X12.  [GetContractState] returns an error exactly when the instruction
    has no Spawn and the store fails, in [Record] or in [Values], and the
    error is the store's own; a Spawn never fails. *)
Theorem GetContractState_error_iff :
  forall (instr : Instruction Identity) (coll : CollectionView) (err : error),
    GetContractState instr coll = Err err <->
    instr_Spawn instr = None /\
    (Record_ (Get coll (Slice (instr_ObjectID instr))) = inl err \/
     exists record,
       Record_ (Get coll (Slice (instr_ObjectID instr))) = inr record /\
       Values record = inl err).
Proof.
  intros instr coll err. unfold GetContractState.
  destruct (instr_Spawn instr) as [sp |].
  - split; [discriminate | intros [H _]; discriminate].
  - destruct (Record_ (Get coll (Slice (instr_ObjectID instr)))) as [e | record].
    + split.
      * intros H. injection H as ->. split; [reflexivity | left; reflexivity].
      * intros [_ [H | [r [H _]]]]; [injection H as -> | discriminate].
        reflexivity.
    + destruct (Values record) as [e | cv] eqn:Hval.
      * split.
        -- intros H. injection H as ->. split; [reflexivity |].
           right. exists record. split; [reflexivity | exact Hval].
        -- intros [_ [H | [r [Hr He]]]]; [discriminate |].
           injection Hr as <-. rewrite Hval in He. injection He as ->.
           reflexivity.
      * split.
        -- destruct (bytes_at cv 1); [destruct (bytes_at cv 0) |]; discriminate.
        -- intros [_ [H | [r [Hr He]]]]; [discriminate |].
           injection Hr as <-. rewrite Hval in He. discriminate.
Qed.



(** X14.  What [NewStateChange] puts in a state change comes back: when
    the record of the targeted object holds the value and the contract ID
    of a state change built for it, [GetContractState] returns the contract
    ID the state change was built with, and its value. *)
Theorem GetContractState_after_NewStateChange :
  forall (instr : Instruction Identity) (coll : CollectionView)
         (record : collection_Record) (sa : StateAction)
         (contractID : string) (value : bytes) (more : list field_value),
    instr_Spawn instr = None ->
    Record_ (Get coll (sc_ObjectID
                         (NewStateChange sa (instr_ObjectID instr) contractID value)))
      = inr record ->
    Values record
      = inr (BytesValue (sc_Value (NewStateChange sa (instr_ObjectID instr) contractID value))
               :: BytesValue (sc_ContractID
                                (NewStateChange sa (instr_ObjectID instr) contractID value))
               :: more) ->
    GetContractState instr coll = Ok (contractID, value).
Proof.
  intros instr coll record sa contractID value more Hsp Hrec Hval.
  unfold GetContractState. cbn [NewStateChange sc_ObjectID] in Hrec.
  rewrite Hsp, Hrec, Hval.
  cbn [bytes_at nth_error NewStateChange sc_Value sc_ContractID].
  rewrite string_of_bytes_of_string. reflexivity.
Qed.

End ContractStateFacts.

(** The store holds what a Create of a ["coin"] on the genesis object put
    there. *)
Lemma GetContractState_after_NewStateChange_witness :
  GetContractState Examples.signed_delete
    (Examples.store_of
       [ BytesValue (sc_Value Examples.created);
         BytesValue (sc_ContractID Examples.created) ])
  = Ok ("coin"%string, [100]).
Proof.
  apply (GetContractState_after_NewStateChange Examples.signed_delete
           (Examples.store_of
              [ BytesValue (sc_Value Examples.created);
                BytesValue (sc_ContractID Examples.created) ])
           {| Values := inr [ BytesValue (sc_Value Examples.created);
                              BytesValue (sc_ContractID Examples.created) ] |}
           Create "coin" [100] []);
    reflexivity.
Defined.

(** ** More on the salt *)

Lemma lxor_byte (a b : Z) :
  0 <= a < 256 -> 0 <= b < 256 -> 0 <= Z.lxor a b < 256.
Proof.
  intros Ha Hb.
  assert (Hnn : 0 <= Z.lxor a b) by (apply Z.lxor_nonneg; lia).
  split; [exact Hnn |].
  destruct (Z.eq_dec (Z.lxor a b) 0) as [-> | Hne]; [lia |].
  change 256 with (2 ^ 8). apply Z.log2_lt_pow2; [lia |].
  pose proof (Z.log2_lxor a b (proj1 Ha) (proj1 Hb)) as Hlog.
  assert (Hla : Z.log2 a < 8).
  { destruct (Z.eq_dec a 0) as [-> | Hane]; [reflexivity |].
    apply Z.log2_lt_pow2; lia. }
  assert (Hlb : Z.log2 b < 8).
  { destruct (Z.eq_dec b 0) as [-> | Hbne]; [reflexivity |].
    apply Z.log2_lt_pow2; lia. }
  lia.
Qed.

Lemma Sum256_bytes (msg : bytes) :
  Forall (fun b => 0 <= b < 256) (SHA256.Sum256 msg).
Proof.
  unfold SHA256.Sum256, SHA256.digest.
  destruct (SHA256.absorb _ _ _) as [[[[[[[a b] c] d] e] f] g] h].
  unfold SHA256.bytes_of_word. cbn [app].
  repeat constructor; apply Z.mod_pos_bound; lia.
Qed.

Lemma nth_byte (l : bytes) (i : nat) :
  Forall (fun b => 0 <= b < 256) l -> 0 <= nth i l 0 < 256.
Proof.
  intros Hl. destruct (Nat.lt_ge_cases i (List.length l)) as [Hlt | Hge].
  - rewrite Forall_forall in Hl. apply Hl. apply nth_In. exact Hlt.
  - rewrite nth_overflow by exact Hge. lia.
Qed.

Lemma xor_range_bytes (result hs : bytes) :
  Forall (fun b => 0 <= b < 256) result ->
  Forall (fun b => 0 <= b < 256) hs ->
  Forall (fun b => 0 <= b < 256) (xor_range result hs).
Proof.
  intros Hr Hh. unfold xor_range. apply Forall_forall.
  intros x Hx. apply in_map_iff in Hx. destruct Hx as [i [<- _]].
  apply lxor_byte; apply nth_byte; assumption.
Qed.

Lemma xor_range_zero (hs : bytes) :
  List.length hs = SHA256.Size ->
  xor_range (repeat 0 SHA256.Size) hs = hs.
Proof.
  intros Hlen.
  apply nth_ext with (d := 0) (d' := 0).
  - rewrite xor_range_length, repeat_length. symmetry. exact Hlen.
  - intros i Hi. rewrite xor_range_length in Hi.
    rewrite xor_range_nth by exact Hi.
    rewrite nth_repeat. apply Z.lxor_0_l.
Qed.

Lemma xor_range_cancel (result hs : bytes) :
  xor_range (xor_range result hs) hs = result.
Proof.
  apply nth_ext with (d := 0) (d' := 0).
  - rewrite !xor_range_length. reflexivity.
  - intros i Hi. rewrite !xor_range_length in Hi.
    rewrite xor_range_nth by (rewrite xor_range_length; exact Hi).
    rewrite xor_range_nth by exact Hi.
    rewrite Z.lxor_assoc, Z.lxor_nilpotent. apply Z.lxor_0_r.
Qed.

(** X15.  The salt has 32 bytes, each in [0, 256); for no transaction it
    is 32 zero bytes, and for one transaction the SHA-256 digest of its
    encoding. *)
Theorem xorTransactions_shape :
  forall ts : list bytes,
    List.length (xorTransactions ts) = 32%nat /\
    Forall (fun b => 0 <= b < 256) (xorTransactions ts) /\
    xorTransactions [] = repeat 0 32 /\
    (forall t, xorTransactions [t] = SHA256.Sum256 t).
Proof.
  intros ts. repeat split.
  - apply xorTransactions_length.
  - unfold xorTransactions.
    assert (H : forall r,
               Forall (fun b => 0 <= b < 256) r ->
               Forall (fun b => 0 <= b < 256)
                      (fold_left (fun result t => xor_range result (SHA256.Sum256 t)) ts r)).
    { induction ts as [| t ts IH]; intros r Hr; simpl; [exact Hr |].
      apply IH. apply xor_range_bytes; [exact Hr | apply Sum256_bytes]. }
    apply H. apply Forall_forall. intros x Hx.
    apply repeat_spec in Hx. subst x. lia.
  - intros t. unfold xorTransactions. cbn [fold_left].
    apply xor_range_zero. apply Sum256_length.
Qed.

(** X16.  A transaction that occurs twice cancels itself out of the salt:
    the salt of a slice is that of the slice without the two copies. *)
Theorem xorTransactions_duplicates_cancel :
  forall (before between after : list bytes) (t : bytes),
    xorTransactions (before ++ t :: between ++ t :: after)
    = xorTransactions (before ++ between ++ after).
Proof.
  intros before between after t.
  rewrite (xorTransactions_Permutation
             (before ++ t :: between ++ t :: after)
             (t :: t :: before ++ between ++ after)).
  - unfold xorTransactions. cbn [fold_left]. rewrite xor_range_cancel. reflexivity.
  - apply Permutation_trans with (t :: before ++ between ++ t :: after).
    + apply Permutation_sym, Permutation_middle.
    + apply perm_skip. rewrite !app_assoc.
      apply Permutation_sym, Permutation_middle.
Qed.

Lemma xor_range_assoc (r z x y : bytes) :
  List.length r = List.length z ->
  (forall i, nth i z 0 = 0) ->
  xor_range r (xor_range (xor_range z x) y) = xor_range (xor_range r x) y.
Proof.
  intros Hlen Hz.
  apply nth_ext with (d := 0) (d' := 0).
  - rewrite !xor_range_length. reflexivity.
  - intros i Hi. rewrite xor_range_length in Hi.
    rewrite xor_range_nth by exact Hi.
    rewrite xor_range_nth by (rewrite xor_range_length, <- Hlen; exact Hi).
    rewrite xor_range_nth by (rewrite <- Hlen; exact Hi).
    rewrite xor_range_nth by (rewrite xor_range_length; exact Hi).
    rewrite xor_range_nth by exact Hi.
    rewrite Hz, Z.lxor_0_l. apply eq_sym, Z.lxor_assoc.
Qed.

(** X17.  The salt of two slices put together is the byte-wise XOR of
    their salts. *)
Theorem xorTransactions_app :
  forall ts1 ts2 : list bytes,
    xorTransactions (ts1 ++ ts2)
    = xor_range (xorTransactions ts1) (xorTransactions ts2).
Proof.
  intros ts1 ts2. unfold xorTransactions. rewrite fold_left_app.
  set (f := fun result t => xor_range result (SHA256.Sum256 t)).
  set (zeros := repeat 0 SHA256.Size).
  assert (Hf : forall l r, List.length (fold_left f l r) = List.length r).
  { induction l as [| t l IH]; intros r; simpl; [reflexivity |].
    rewrite IH. apply xor_range_length. }
  assert (H : forall l r,
             List.length r = SHA256.Size ->
             fold_left f l r = xor_range r (fold_left f l zeros)).
  { induction l as [| t l IH]; intros r Hr; cbn [fold_left].
    - apply nth_ext with (d := 0) (d' := 0).
      + rewrite xor_range_length. reflexivity.
      + intros i Hi. rewrite xor_range_nth by exact Hi.
        unfold zeros. rewrite nth_repeat. symmetry. apply Z.lxor_0_r.
    - rewrite (IH (f r t)) by (unfold f; rewrite xor_range_length; exact Hr).
      rewrite (IH (f zeros t))
        by (unfold f, zeros; rewrite xor_range_length; apply repeat_length).
      unfold f at 1 3. symmetry. apply xor_range_assoc.
      + rewrite Hr. unfold zeros. rewrite repeat_length. reflexivity.
      + intros i. unfold zeros. apply nth_repeat. }
  apply H. rewrite Hf. apply repeat_length.
Qed.

(** ** More on the ordering *)


Section MoreOrderingFacts.

Context {Identity : Type}.
Variable network_Marshal : ClientTransaction Identity -> error + bytes.
Variable network_Unmarshal : bytes -> error + Message Identity.
Variable sorter : SliceSorter.

Lemma unmarshal_all_total (bs : list bytes) :
  (forall b, In b bs ->
             exists ct, network_Unmarshal b = inr (ClientTransactionMsg ct)) ->
  exists cts, unmarshal_all network_Unmarshal bs = inr cts.
Proof.
  induction bs as [| b bs IH]; intros Hall; simpl.
  - eauto.
  - destruct (Hall b (or_introl eq_refl)) as [ct ->].
    destruct IH as [cts ->]; [intros b' Hb'; apply Hall; right; exact Hb' |].
    eauto.
Qed.

Lemma unmarshal_all_decodes (bs : list bytes) :
  forall cts b,
    unmarshal_all network_Unmarshal bs = inr cts -> In b bs ->
    exists ct, network_Unmarshal b = inr (ClientTransactionMsg ct).
Proof.
  induction bs as [| b0 bs IH]; intros cts b H Hin; [destruct Hin |].
  simpl in H.
  destruct (network_Unmarshal b0) as [e | [ct |]] eqn:Hb0; try discriminate.
  destruct (unmarshal_all network_Unmarshal bs) as [e | cts'] eqn:Hbs;
    [discriminate |].
  destruct Hin as [<- | Hin]; [eauto | eapply IH; [reflexivity | exact Hin]].
Qed.

Lemma marshal_all_first_error (before after : list (ClientTransaction Identity))
    (t : ClientTransaction Identity) (err : error) :
  (forall p, In p before -> exists b, network_Marshal p = inr b) ->
  network_Marshal t = inl err ->
  marshal_all network_Marshal (before ++ t :: after) = inl err.
Proof.
  intros Hbefore Ht. induction before as [| p before IH]; simpl.
  - rewrite Ht. reflexivity.
  - destruct (Hbefore p (or_introl eq_refl)) as [b ->].
    rewrite IH; [reflexivity |]. intros q Hq. apply Hbefore. right. exact Hq.
Qed.

(** X19.  [sortTransactions] never changes the number of transactions in
    the slice, whether it fails or succeeds, and whatever the codec gives
    back; on an empty slice it succeeds and leaves it empty. *)
Theorem sortTransactions_keeps_length :
  forall ts : list (ClientTransaction Identity),
    List.length (fst (sortTransactions network_Marshal network_Unmarshal sorter ts))
    = List.length ts /\
    sortTransactions network_Marshal network_Unmarshal sorter [] = ([], None).
Proof.
  intros ts. split.
  - destruct (sortTransactions network_Marshal network_Unmarshal sorter ts)
      as [out [err |]] eqn:Hsort; cbn [fst].
    + apply sortTransactions_error_unchanged in Hsort. subst out. reflexivity.
    + apply sortTransactions_success in Hsort. destruct Hsort as [bs [Hm Hu]].
      rewrite (unmarshal_all_length _ _ _ Hu). unfold sortWithSalt.
      rewrite <- (Permutation_length (sort_Slice_Permutation sorter _ bs _)).
      destruct (marshal_all_inr _ _ _ Hm) as [-> _]. apply length_map.
  - apply sortTransactions_success. exists []. split; [reflexivity |].
    unfold sortWithSalt.
    rewrite (Permutation_nil (sort_Slice_Permutation sorter bytes [] _)).
    reflexivity.
Qed.

(** X20.  [sortTransactions] returns no error exactly when every
    transaction of the slice encodes and its encoding decodes to a client
    transaction. *)
Theorem sortTransactions_succeeds_iff :
  forall ts : list (ClientTransaction Identity),
    snd (sortTransactions network_Marshal network_Unmarshal sorter ts) = None <->
    (forall t, In t ts ->
       exists b ct,
         network_Marshal t = inr b /\
         network_Unmarshal b = inr (ClientTransactionMsg ct)).
Proof.
  intros ts. split.
  - intros Hnone t Hin.
    destruct (sortTransactions network_Marshal network_Unmarshal sorter ts)
      as [out res] eqn:Hsort.
    cbn [snd] in Hnone. subst res.
    apply sortTransactions_success in Hsort. destruct Hsort as [bs [Hm Hu]].
    destruct (marshal_all_inr _ _ _ Hm) as [-> Hall].
    rewrite Forall_forall in Hall.
    destruct (unmarshal_all_decodes _ _ (encoding network_Marshal t) Hu) as [ct Hct].
    + unfold sortWithSalt.
      eapply Permutation_in; [apply sort_Slice_Permutation |].
      apply in_map. exact Hin.
    + exists (encoding network_Marshal t), ct. split; [apply Hall, Hin | exact Hct].
  - intros Hall.
    assert (Hm : marshal_all network_Marshal ts
                 = inr (map (encoding network_Marshal) ts)).
    { apply marshal_all_Forall. apply Forall_forall. intros t Hin.
      destruct (Hall t Hin) as [b [_ [Hb _]]].
      unfold encoding. rewrite Hb. reflexivity. }
    destruct (unmarshal_all_total
                (sortWithSalt sorter (map (encoding network_Marshal) ts)
                   (xorTransactions (map (encoding network_Marshal) ts))))
      as [cts Hcts].
    { intros b Hb. unfold sortWithSalt in Hb.
      apply (Permutation_in _ (Permutation_sym (sort_Slice_Permutation sorter _ _ _)))
        in Hb.
      apply in_map_iff in Hb. destruct Hb as [t [<- Hin]].
      destruct (Hall t Hin) as [b [ct [Hb Hct]]].
      exists ct. unfold encoding. rewrite Hb. exact Hct. }
    assert (Hsort : sortTransactions network_Marshal network_Unmarshal sorter ts
                    = (cts, None)).
    { apply sortTransactions_success. eauto. }
    rewrite Hsort. reflexivity.
Qed.

(** X21.  The error of a failed encoding is returned as it is: when the
    transactions before one that fails all encode, [sortTransactions]
    returns the error of that one and leaves the slice as it was. *)
Theorem sortTransactions_returns_first_encoding_error :
  forall (before after : list (ClientTransaction Identity))
         (t : ClientTransaction Identity) (err : error),
    (forall p, In p before -> exists b, network_Marshal p = inr b) ->
    network_Marshal t = inl err ->
    sortTransactions network_Marshal network_Unmarshal sorter (before ++ t :: after)
    = (before ++ t :: after, Some err).
Proof.
  intros before after t err Hbefore Ht. unfold sortTransactions.
  rewrite (marshal_all_first_error before after t err Hbefore Ht). reflexivity.
Qed.

End MoreOrderingFacts.

(** The transaction whose index does not fit a byte gives its error. *)
Lemma sortTransactions_returns_first_encoding_error_witness :
  sortTransactions Examples.index_Marshal Examples.index_Unmarshal insertion_sorter
    [Examples.A; Examples.oversized; Examples.B]
  = ([Examples.A; Examples.oversized; Examples.B],
     Some "index does not fit a byte"%string).
Proof.
  apply (sortTransactions_returns_first_encoding_error
           Examples.index_Marshal Examples.index_Unmarshal insertion_sorter
           [Examples.A] [Examples.B] Examples.oversized).
  - intros p [<- | []]. eexists. vm_compute. reflexivity.
  - vm_compute. reflexivity.
Defined.

(** ** More on the digest of state changes *)

(** X22.  [StateChanges.Hash] writes the buffer of every entry to the
    running hash, also the buffer that comes with an error: the digest is
    that of all buffers [protobuf.Encode] returned, in order, and one line
    is logged for each error; with no entry it is the digest of the empty
    input, and nothing is logged. *)
Theorem StateChanges_Hash_writes_every_buffer :
  forall (protobuf_Encode : StateChange -> bytes * option error)
         (scs : list StateChange),
    fst (StateChanges_Hash protobuf_Encode scs)
      = SHA256.Sum256
          (List.concat (map (fun sc => fst (protobuf_Encode sc)) scs)) /\
    snd (StateChanges_Hash protobuf_Encode scs)
      = repeat marshal_failure
          (List.length
             (filter (fun sc => negb (encodable protobuf_Encode sc)) scs)) /\
    StateChanges_Hash protobuf_Encode [] = (SHA256.Sum256 [], []).
Proof.
  intros protobuf_Encode scs. unfold StateChanges_Hash.
  fold marshal_failure. rewrite StateChanges_Hash_loop.
  repeat split.
Qed.

(** ** Signing *)

Section SigningFacts.

Context {Identity : Type}.
Variable zeroIdentity : Identity.
Variable Darc : Type.
Variable NewFromProtobuf : bytes -> error + Darc.
Variable GetID : Darc -> bytes.
Variable Request_Hash : darc_Request Identity -> bytes.

(** The placeholder a signer gets in the first pass, and the signature it
    leaves in the second. *)
Definition placeholder (s : darc_Signer Identity) : darc_Signature Identity :=
  {| sig_Signature := []; sig_Signer := signer_Identity s |}.

Definition signed (digest : bytes) (s : darc_Signer Identity)
  : darc_Signature Identity :=
  {| sig_Signature := match signer_Sign s digest with
                      | inr sig => sig
                      | inl _ => []
                      end;
     sig_Signer := signer_Identity s |}.

(** The digest the signers are asked to sign: that of the request for the
    instruction's darc, label and digest, with the signers' identities and
    as many empty signatures. *)
Definition signing_digest (instr : Instruction Identity)
    (signers : list (darc_Signer Identity)) : bytes :=
  Request_Hash
    {| req_BaseID := oid_DarcID (instr_ObjectID instr);
       req_Action := Action instr;
       req_Msg := Instruction_Hash instr;
       req_Identities := map signer_Identity signers;
       req_Signatures := map (fun _ => []) signers |}.

Lemma set_signers_from (rest : list (darc_Signer Identity)) :
  forall pre : list (darc_Signature Identity),
    set_signers rest (List.length pre)
                (pre ++ repeat (zeroSignature zeroIdentity) (List.length rest))
    = Some (pre ++ map placeholder rest).
Proof.
  induction rest as [| s rest IH]; intros pre.
  - simpl. rewrite !app_nil_r. reflexivity.
  - cbn [set_signers List.length repeat map].
    rewrite nth_error_app2, Nat.sub_diag by lia. cbn [nth_error].
    rewrite store_at_length.
    specialize (IH (pre ++ [placeholder s])).
    rewrite length_app in IH. cbn [List.length] in IH.
    rewrite <- !app_assoc in IH. cbn [app] in IH.
    replace (S (List.length pre)) with (List.length pre + 1)%nat by lia.
    exact IH.
Qed.

Lemma set_identities_from (rest : list (darc_Signer Identity)) :
  forall pre : list Identity,
    set_identities rest (List.length pre)
                   (pre ++ repeat zeroIdentity (List.length rest))
    = Some (pre ++ map signer_Identity rest).
Proof.
  induction rest as [| s rest IH]; intros pre.
  - simpl. rewrite !app_nil_r. reflexivity.
  - cbn [set_identities List.length repeat map].
    rewrite store_at_length.
    specialize (IH (pre ++ [signer_Identity s])).
    rewrite length_app in IH. cbn [List.length] in IH.
    rewrite <- !app_assoc in IH. cbn [app] in IH.
    replace (S (List.length pre)) with (List.length pre + 1)%nat by lia.
    exact IH.
Qed.

Lemma sign_all_succeeding (digest : bytes) (ok : list (darc_Signer Identity)) :
  forall (pre : list (darc_Signature Identity)) (rest : list (darc_Signer Identity)),
    Forall (fun s => exists sig, signer_Sign s digest = inr sig) ok ->
    sign_all (ok ++ rest) (List.length pre) digest
             (pre ++ repeat (zeroSignature zeroIdentity)
                            (List.length ok + List.length rest))
    = sign_all rest (List.length (pre ++ map (signed digest) ok)) digest
               ((pre ++ map (signed digest) ok)
                  ++ repeat (zeroSignature zeroIdentity) (List.length rest)).
Proof.
  induction ok as [| s ok IH]; intros pre rest Hok.
  - simpl. rewrite !app_nil_r. reflexivity.
  - inversion Hok as [| s' ok' [sig Hs] Hok' ]; subst.
    cbn [app sign_all List.length repeat map Nat.add].
    rewrite Hs, store_at_length.
    specialize (IH (pre ++ [signed digest s]) rest Hok').
    rewrite length_app in IH. cbn [List.length] in IH.
    rewrite <- !app_assoc in IH. cbn [app] in IH.
    replace (S (List.length pre)) with (List.length pre + 1)%nat by lia.
    assert (Hsig : {| sig_Signature := sig; sig_Signer := signer_Identity s |}
                   = signed digest s)
      by (unfold signed; rewrite Hs; reflexivity).
    rewrite Hsig, IH. rewrite <- !app_assoc. reflexivity.
Qed.

Lemma sign_all_shape (digest : bytes) (rest : list (darc_Signer Identity)) :
  forall pre : list (darc_Signature Identity),
  exists done result,
    sign_all rest (List.length pre) digest
             (pre ++ repeat (zeroSignature zeroIdentity) (List.length rest))
    = (pre ++ done, result) /\
    List.length done = List.length rest /\
    result <> Panic /\
    (forall err, result = Err err ->
                 exists s, In s rest /\ signer_Sign s digest = inl err).
Proof.
  induction rest as [| s rest IH]; intros pre.
  - exists [], (Ok tt). simpl. repeat split; try discriminate.
  - cbn [sign_all List.length repeat].
    destruct (signer_Sign s digest) as [err | sig] eqn:Hs.
    + exists (repeat (zeroSignature zeroIdentity) (S (List.length rest))), (Err err).
      repeat split; try discriminate.
      * apply repeat_length.
      * intros e He. injection He as <-. exists s. split; [left; reflexivity | exact Hs].
    + rewrite store_at_length.
      destruct (IH (pre ++ [ {| sig_Signature := sig;
                                sig_Signer := signer_Identity s |} ]))
        as [done [result [Heq [Hlen [Hnp Herr]]]]].
      rewrite length_app in Heq. cbn [List.length] in Heq.
      rewrite <- !app_assoc in Heq. cbn [app] in Heq.
      replace (S (List.length pre)) with (List.length pre + 1)%nat by lia.
      exists ({| sig_Signature := sig; sig_Signer := signer_Identity s |} :: done), result.
      repeat split.
      * exact Heq.
      * simpl. rewrite Hlen. reflexivity.
      * exact Hnp.
      * intros e He. destruct (Herr e He) as [s' [Hin Hs']].
        exists s'. split; [right; exact Hin | exact Hs'].
Qed.

Lemma ToDarcRequest_request (instr : Instruction Identity) :
  ToDarcRequest zeroIdentity NewFromProtobuf GetID instr
  = Ok {| req_BaseID := oid_DarcID (instr_ObjectID instr);
          req_Action := Action instr;
          req_Msg := Instruction_Hash instr;
          req_Identities := map sig_Signer (instr_Signatures instr);
          req_Signatures := map sig_Signature (instr_Signatures instr) |}.
Proof.
  unfold ToDarcRequest. rewrite collect_all.
  destruct (String.eqb_spec (Action instr) "_evolve") as [Heq | _].
  - destruct (Action_never_evolve instr Heq).
  - reflexivity.
Qed.

(** What [SignBy] comes to: the signers sign the digest of the request,
    over placeholders that only the third loop replaces. *)
Lemma SignBy_signs_digest (instr : Instruction Identity)
    (signers : list (darc_Signer Identity)) :
  SignBy zeroIdentity NewFromProtobuf GetID Request_Hash instr signers
  = let '(sigs, result) :=
      sign_all signers 0 (signing_digest instr signers)
               (repeat (zeroSignature zeroIdentity) (List.length signers)) in
    (with_Signatures instr sigs, result).
Proof.
  unfold SignBy.
  pose proof (set_signers_from signers []) as Hsigners.
  pose proof (set_identities_from signers []) as Hids.
  cbn [List.length app] in Hsigners, Hids.
  rewrite Hsigners, ToDarcRequest_request, Hids.
  cbn [req_BaseID req_Action req_Msg req_Signatures].
  rewrite Instruction_Hash_with_Signatures.
  change (instr_Signatures (with_Signatures instr (map placeholder signers)))
    with (map placeholder signers).
  rewrite map_map. unfold signing_digest.
  reflexivity.
Qed.

(** X23.  When every signer signs the digest, [SignBy] returns no error
    and leaves one signature per signer, in the order of the signers, each
    with the signer's identity and its signature of the digest of the
    request; the signatures the instruction had before are gone. *)
Theorem SignBy_signs_with_every_signer :
  forall (instr : Instruction Identity) (signers : list (darc_Signer Identity)),
    Forall (fun s => exists sig,
                signer_Sign s (signing_digest instr signers) = inr sig) signers ->
    SignBy zeroIdentity NewFromProtobuf GetID Request_Hash instr signers
    = (with_Signatures instr (map (signed (signing_digest instr signers)) signers),
       Ok tt).
Proof.
  intros instr signers Hok. rewrite SignBy_signs_digest.
  pose proof (sign_all_succeeding (signing_digest instr signers) signers [] [] Hok)
    as H.
  rewrite app_nil_r in H. cbn [List.length app] in H.
  rewrite Nat.add_0_r in H. rewrite H. cbn [sign_all].
  rewrite app_nil_r. reflexivity.
Qed.

(** X24.  When a signer fails after others have signed, [SignBy] returns
    that signer's error, and the instruction is left with the signatures
    of those before it followed by zero-valued signatures, one for the
    failing signer and one for each signer after it. *)
Theorem SignBy_stops_at_first_failure :
  forall (instr : Instruction Identity)
         (ok after : list (darc_Signer Identity)) (s : darc_Signer Identity)
         (err : error),
    Forall (fun s' => exists sig,
                signer_Sign s' (signing_digest instr (ok ++ s :: after)) = inr sig)
           ok ->
    signer_Sign s (signing_digest instr (ok ++ s :: after)) = inl err ->
    SignBy zeroIdentity NewFromProtobuf GetID Request_Hash instr (ok ++ s :: after)
    = (with_Signatures instr
         (map (signed (signing_digest instr (ok ++ s :: after))) ok
            ++ repeat (zeroSignature zeroIdentity) (S (List.length after))),
       Err err).
Proof.
  intros instr ok after s err Hok Hs. rewrite SignBy_signs_digest.
  rewrite length_app. cbn [List.length].
  pose proof (sign_all_succeeding (signing_digest instr (ok ++ s :: after))
                ok [] (s :: after) Hok) as H.
  cbn [List.length app] in H. rewrite H.
  cbn [sign_all]. rewrite Hs. reflexivity.
Qed.

(** X25.  [SignBy] never panics, and an error it returns is the error of
    one of the signers.  Whatever it returns, it leaves as many signatures
    as there are signers and changes nothing else of the instruction, so
    the digest of the instruction is the same; and the signatures the
    instruction had before the call have no part in the result. *)
Theorem SignBy_changes_signatures_only :
  forall (instr : Instruction Identity) (signers : list (darc_Signer Identity))
         (before : list (darc_Signature Identity)),
    let after := SignBy zeroIdentity NewFromProtobuf GetID Request_Hash instr signers in
    snd after <> Panic /\
    (forall err, snd after = Err err ->
       exists s, In s signers /\
                 signer_Sign s (signing_digest instr signers) = inl err) /\
    List.length (instr_Signatures (fst after)) = List.length signers /\
    with_Signatures (fst after) (instr_Signatures instr) = instr /\
    Instruction_Hash (fst after) = Instruction_Hash instr /\
    SignBy zeroIdentity NewFromProtobuf GetID Request_Hash
           (with_Signatures instr before) signers
    = after.
Proof.
  intros instr signers before after. subst after.
  rewrite !SignBy_signs_digest.
  destruct (sign_all_shape (signing_digest instr signers) signers [])
    as [done [result [Heq [Hlen [Hnp Herr]]]]].
  cbn [app List.length] in Heq.
  assert (Hdigest : signing_digest (with_Signatures instr before) signers
                    = signing_digest instr signers).
  { unfold signing_digest.
    rewrite (Instruction_Hash_with_Signatures instr before). reflexivity. }
  rewrite Hdigest, Heq. cbn [fst snd].
  split; [exact Hnp |].
  split; [exact Herr |].
  split; [exact Hlen |].
  split; [destruct instr; reflexivity |].
  split; [apply Instruction_Hash_with_Signatures | reflexivity].
Qed.

End SigningFacts.

(** Alice and Bob sign a Delete that carried two other signatures. *)
Lemma SignBy_signs_with_every_signer_witness :
  SignBy ""%string Examples.no_darc (fun _ : unit => [])
         Examples.request_digest Examples.signed_delete
         [Examples.alice; Examples.bob]
  = (with_Signatures Examples.signed_delete
       [ {| sig_Signature := 65 :: firstn 2
              (signing_digest Examples.request_digest Examples.signed_delete
                 [Examples.alice; Examples.bob]);
            sig_Signer := "alice"%string |};
         {| sig_Signature := 66 :: firstn 2
              (signing_digest Examples.request_digest Examples.signed_delete
                 [Examples.alice; Examples.bob]);
            sig_Signer := "bob"%string |} ],
     Ok tt).
Proof.
  apply (SignBy_signs_with_every_signer ""%string unit Examples.no_darc
           (fun _ : unit => []) Examples.request_digest Examples.signed_delete
           [Examples.alice; Examples.bob]).
  repeat constructor; eexists; reflexivity.
Defined.

(** The second of three signers has no key. *)
Lemma SignBy_stops_at_first_failure_witness :
  SignBy ""%string Examples.no_darc (fun _ : unit => [])
         Examples.request_digest Examples.signed_delete
         [Examples.alice; Examples.keyless; Examples.bob]
  = (with_Signatures Examples.signed_delete
       [ {| sig_Signature := 65 :: firstn 2
              (signing_digest Examples.request_digest Examples.signed_delete
                 [Examples.alice; Examples.keyless; Examples.bob]);
            sig_Signer := "alice"%string |};
         {| sig_Signature := []; sig_Signer := ""%string |};
         {| sig_Signature := []; sig_Signer := ""%string |} ],
     Err "no private key"%string).
Proof.
  apply (SignBy_stops_at_first_failure ""%string unit Examples.no_darc
           (fun _ : unit => []) Examples.request_digest Examples.signed_delete
           [Examples.alice] [Examples.bob] Examples.keyless).
  - repeat constructor. eexists. reflexivity.
  - reflexivity.
Defined.
